(** * Tron light cycle game: grid search, flood fill, pursuit agent and tick
    resolution of [game.py], embedded shallowly and verified.

    Cells and directions are Python tuples of two ints: pairs of [Z].
    Python sets of cells are [gset (Z * Z)]; lists are lists. *)

From stdpp Require Import gmap list sorting.
From Stdlib Require Import ZArith Lia.

Local Open Scope Z_scope.
Set Warnings "-clear-no-such-hyp".

Abbreviation cell := (Z * Z)%type.

(* ------------------------------------------------------------------ *)
(** ** Constants and geometry *)

Definition COLS : Z := 60.
Definition ROWS : Z := 40.

Definition UP    : cell := (0, -1).
Definition DOWN  : cell := (0, 1).
Definition LEFT  : cell := (-1, 0).
Definition RIGHT : cell := (1, 0).
Definition DIRS  : list cell := [UP; DOWN; LEFT; RIGHT].

Definition opposite (d : cell) : cell := (- d.1, - d.2).

(** [0 <= x < COLS and 0 <= y < ROWS] *)
Definition inside (c : cell) : bool :=
  (0 <=? c.1) && (c.1 <? COLS) && (0 <=? c.2) && (c.2 <? ROWS).

(** The cell one step from [c] along the delta [d]. *)
Definition shift (c d : cell) : cell := (c.1 + d.1, c.2 + d.2).

(* ------------------------------------------------------------------ *)
(** ** A* search *)

Definition heuristic (a b : cell) : Z := Z.abs (a.1 - b.1) + Z.abs (a.2 - b.2).

(** A frontier entry is the tuple [(f, g, node, path)]. *)
Abbreviation entry := (Z * Z * cell * list cell)%type.

Definition entry_f (e : entry) : Z := e.1.1.1.
Definition entry_g (e : entry) : Z := e.1.1.2.
Definition entry_node (e : entry) : cell := e.1.2.
Definition entry_path (e : entry) : list cell := e.2.

(** Python compares tuples and lists lexicographically. *)
Definition cell_compare (a b : cell) : comparison :=
  match a.1 ?= b.1 with
  | Eq => a.2 ?= b.2
  | c => c
  end.

Fixpoint path_compare (p q : list cell) : comparison :=
  match p, q with
  | [], [] => Eq
  | [], _ :: _ => Lt
  | _ :: _, [] => Gt
  | a :: p', b :: q' =>
      match cell_compare a b with
      | Eq => path_compare p' q'
      | c => c
      end
  end.

Definition entry_compare (a b : entry) : comparison :=
  match entry_f a ?= entry_f b with
  | Eq =>
      match entry_g a ?= entry_g b with
      | Eq =>
          match cell_compare (entry_node a) (entry_node b) with
          | Eq => path_compare (entry_path a) (entry_path b)
          | c => c
          end
      | c => c
      end
  | c => c
  end.

Definition entry_ltb (a b : entry) : bool :=
  match entry_compare a b with Lt => true | _ => false end.

(** [heapq]: the heap is a list of entries; [heappush] adds one entry and
    [heappop] removes and returns the least entry in tuple order
    ([heappop_least]).  The tuple order is total ([entry_compare_ok]), so
    equally small entries are identical values and the array layout of the
    binary heap is not observable by [astar]. *)
Definition heappush (h : list entry) (e : entry) : list entry := e :: h.

Fixpoint heappop (h : list entry) : option (entry * list entry) :=
  match h with
  | [] => None
  | x :: xs =>
      match heappop xs with
      | None => Some (x, [])
      | Some (m, r) =>
          if entry_ltb m x then Some (m, x :: r) else Some (x, m :: r)
      end
  end.

(** One round of [for dx, dy in DIRS] inside the search loop. *)
Definition astar_neighbor (goal : cell) (blocked closed : gset cell)
    (g : Z) (current : cell) (path : list cell)
    (open_list : list entry) (d : cell) : list entry :=
  let nx := current.1 + d.1 in
  let ny := current.2 + d.2 in
  let neighbor := (nx, ny) in
  if decide (neighbor ∈ closed) then open_list
  else if (nx <? 0) || (ny <? 0) || (nx >=? COLS) || (ny >=? ROWS)
       then open_list
  else if decide (neighbor ∈ blocked) then open_list
  else
    let g_next := g + 1 in
    let f_next := g_next + heuristic neighbor goal in
    heappush open_list (f_next, g_next, neighbor, path ++ [neighbor]).

(** The [while open_list] loop.  The outer [None] means that the fuel ran
    out before the loop ended; [Some r] is the value the loop returns. *)
Fixpoint astar_loop (fuel : nat) (goal : cell) (blocked : gset cell)
    (open_list : list entry) (closed : gset cell)
    : option (option (list cell)) :=
  match fuel with
  | O => None
  | S fuel' =>
      match heappop open_list with
      | None => Some None
      | Some ((f, g, current, path), open') =>
          if decide (current = goal) then Some (Some path)
          else if decide (current ∈ closed)
               then astar_loop fuel' goal blocked open' closed
          else
            let closed' := closed ∪ {[current]} in
            astar_loop fuel' goal blocked
              (fold_left (astar_neighbor goal blocked closed' g current path)
                         DIRS open')
              closed'
      end
  end.

Definition astar_run (fuel : nat) (start goal : cell) (blocked : gset cell)
    : option (option (list cell)) :=
  astar_loop fuel goal blocked
    (heappush [] (heuristic start goal, 0, start, [start])) ∅.

(** Enough rounds for any search on the grid: every round pops one entry,
    a cell is expanded at most once and an expansion pushes at most four
    entries (see [astar_run_total]). *)
Definition astar_fuel : nat := Z.to_nat (5 * (COLS * ROWS + 1) + 2).

Definition astar (start goal : cell) (blocked : gset cell)
    : option (list cell) :=
  match astar_run astar_fuel start goal blocked with
  | Some r => r
  | None => None
  end.

(* ------------------------------------------------------------------ *)
(** ** Flood fill *)

(** [list.pop()]: remove and return the last element. *)
Definition pop_last (q : list cell) : option (cell * list cell) :=
  match reverse q with
  | [] => None
  | x :: r => Some (x, reverse r)
  end.

(** [list.pop(0)]: remove and return the first element (the breadth-first
    discipline, used for the order-independence statement only). *)
Definition pop_first (q : list cell) : option (cell * list cell) :=
  match q with
  | [] => None
  | x :: r => Some (x, r)
  end.

(** One round of [for dx, dy in DIRS] of the fill; the state is
    [(visited, queue)]. *)
Definition flood_neighbor (blocked : gset cell) (x y : Z)
    (st : gset cell * list cell) (d : cell) : gset cell * list cell :=
  let nx := x + d.1 in
  let ny := y + d.2 in
  let n := (nx, ny) in
  if bool_decide (n ∉ st.1) && bool_decide (n ∉ blocked) && inside n
  then (st.1 ∪ {[n]}, st.2 ++ [n])
  else st.

Fixpoint flood_loop (pop : list cell → option (cell * list cell))
    (fuel : nat) (blocked : gset cell)
    (visited : gset cell) (queue : list cell) : option (gset cell) :=
  match fuel with
  | O => None
  | S fuel' =>
      match pop queue with
      | None => Some visited
      | Some ((x, y), queue') =>
          let st := fold_left (flood_neighbor blocked x y) DIRS
                              (visited, queue') in
          flood_loop pop fuel' blocked st.1 st.2
      end
  end.

Definition flood_run (pop : list cell → option (cell * list cell))
    (fuel : nat) (start : cell) (blocked : gset cell) : option (gset cell) :=
  flood_loop pop fuel blocked {[start]} [start].

Definition flood_fuel : nat := Z.to_nat (COLS * ROWS + 3).

(** [len(visited)] for a fill that takes cells with [pop]. *)
Definition flood_fill_with (pop : list cell → option (cell * list cell))
    (start : cell) (blocked : gset cell) : Z :=
  match flood_run pop flood_fuel start blocked with
  | Some visited => Z.of_nat (size visited)
  | None => 0
  end.

Definition flood_fill_count (start : cell) (blocked : gset cell) : Z :=
  flood_fill_with pop_last start blocked.

(* ------------------------------------------------------------------ *)
(** ** Cycle (player / enemy) *)

Record Cycle : Type := mkCycle {
  pos : cell;
  direction : cell;
  trail : gset cell;
  alive : bool
}.

(** [Cycle(pos=p, direction=d)]: the trail starts empty and
    [__post_init__] adds the start cell. *)
Definition new_cycle (p d : cell) : Cycle :=
  {| pos := p; direction := d; trail := ∅ ∪ {[p]}; alive := true |}.

(** [next_pos(d=None)]: [d or self.direction]; a tuple of two ints is
    truthy, so an explicit [d] is always taken. *)
Definition next_pos (c : Cycle) (d : option cell) : cell :=
  let d := default (direction c) d in
  (c.(pos).1 + d.1, c.(pos).2 + d.2).

Definition move (c : Cycle) : Cycle :=
  let nxt := next_pos c None in
  {| pos := nxt; direction := direction c;
     trail := trail c ∪ {[nxt]}; alive := alive c |}.

(** [in_bounds(pos=None)]: [pos or self.pos]. *)
Definition in_bounds (c : Cycle) (p : option cell) : bool :=
  let '(x, y) := default (pos c) p in
  (0 <=? x) && (x <? COLS) && (0 <=? y) && (y <? ROWS).

Definition set_direction (c : Cycle) (d : cell) : Cycle :=
  {| pos := pos c; direction := d; trail := trail c; alive := alive c |}.

(* ------------------------------------------------------------------ *)
(** ** Enemy agent *)

Definition REPLAN_INTERVAL : Z := 3.

(** The agent's own state.  The two cycles it refers to are the game's
    cycles; every method below receives their current value. *)
Record EnemyAgent : Type := mkAgent {
  plan : list cell;
  ticks : Z
}.

Definition new_agent : EnemyAgent := {| plan := []; ticks := 0 |}.

(** The methods of [EnemyAgent]. *)
Module Agent.

Definition _blocked (enemy player : Cycle) : gset cell :=
  trail enemy ∪ trail player.

Definition predict_step (d p : cell) : cell :=
  let nx := p.1 + d.1 in
  let ny := p.2 + d.2 in
  if (0 <=? nx) && (nx <? COLS) && (0 <=? ny) && (ny <? ROWS)
  then (nx, ny) else p.

Definition _predict_player (player : Cycle) (steps : nat) : cell :=
  Nat.iter steps (predict_step (direction player)) (pos player).

(** One round of [for d in DIRS] of the survival fallback; the state is
    [(best_dir, best_space)]. *)
Definition survival_step (enemy : Cycle) (blocked : gset cell) (opp : cell)
    (best : cell * Z) (d : cell) : cell * Z :=
  if decide (d = opp) then best
  else
    let n := next_pos enemy (Some d) in
    if negb ((0 <=? n.1) && (n.1 <? COLS) && (0 <=? n.2) && (n.2 <? ROWS))
    then best
    else if decide (n ∈ blocked) then best
    else
      let space := flood_fill_count n (blocked ∪ {[n]}) in
      if space >? best.2 then (d, space) else best.

Definition _survival_direction (enemy : Cycle) (blocked : gset cell) : cell :=
  let best_dir := direction enemy in
  let best_space := -1 in
  let opp := opposite (direction enemy) in
  (fold_left (survival_step enemy blocked opp) DIRS (best_dir, best_space)).1.

(** The plan held after the re-plan block of [decide]. *)
Definition replan (ag : EnemyAgent) (enemy player : Cycle)
    (ticks' : Z) (blocked : gset cell) : list cell :=
  if (ticks' `mod` REPLAN_INTERVAL =? 0) || bool_decide (plan ag = [])
  then
    let goal := _predict_player player 5 in
    let path := astar (pos enemy) goal blocked in
    let path := match path with
                | None => astar (pos enemy) (pos player) blocked
                | Some _ => path
                end in
    match path with
    | Some (c :: p) => if (1 <? Z.of_nat (length (c :: p))) then p else []
    | _ => []
    end
  else plan ag.

(** [decide]: the direction returned and the agent's state afterwards. *)
Definition decide (ag : EnemyAgent) (enemy player : Cycle)
    : cell * EnemyAgent :=
  let ticks' := ticks ag + 1 in
  let blocked := _blocked enemy player in
  let plan' := replan ag enemy player ticks' blocked in
  match plan' with
  | nxt :: rest =>
      let ag' := {| plan := rest; ticks := ticks' |} in
      let dx := nxt.1 - (pos enemy).1 in
      let dy := nxt.2 - (pos enemy).2 in
      let chosen := (dx, dy) in
      let n := next_pos enemy (Some chosen) in
      if bool_decide (n ∉ blocked) && in_bounds enemy (Some n)
      then (chosen, ag')
      else (_survival_direction enemy blocked, ag')
  | [] =>
      (_survival_direction enemy blocked, {| plan := []; ticks := ticks' |})
  end.

End Agent.

(* ------------------------------------------------------------------ *)
(** ** The game *)

(** [self.state]: "playing" | "win" | "lose" | "draw". *)
Inductive GameState : Type := Playing | Win | Lose | Draw.

Global Instance GameState_eq_dec : EqDecision GameState.
Proof. solve_decision. Defined.

Record TronGame : Type := mkGame {
  player : Cycle;
  enemy : Cycle;
  agent : EnemyAgent;
  state : GameState;
  score : Z;
  frame : Z
}.

Definition reset : TronGame :=
  {| player := new_cycle (10, ROWS `div` 2) RIGHT;
     enemy := new_cycle (COLS - 10, ROWS `div` 2) LEFT;
     agent := new_agent;
     state := Playing;
     score := 0;
     frame := 0 |}.

(** The keys read by [handle_input]. *)
Inductive Key : Type :=
  K_UP | K_w | K_DOWN | K_s | K_LEFT | K_a | K_RIGHT | K_d.

Definition with_player_direction (s : TronGame) (d : cell) : TronGame :=
  {| player := set_direction (player s) d; enemy := enemy s;
     agent := agent s; state := state s; score := score s;
     frame := frame s |}.

(** [keys] is the result of [pygame.key.get_pressed()]. *)
Definition handle_input (keys : Key → bool) (s : TronGame) : TronGame :=
  let d := direction (player s) in
  if (keys K_UP || keys K_w) && bool_decide (d ≠ DOWN)
  then with_player_direction s UP
  else if (keys K_DOWN || keys K_s) && bool_decide (d ≠ UP)
  then with_player_direction s DOWN
  else if (keys K_LEFT || keys K_a) && bool_decide (d ≠ RIGHT)
  then with_player_direction s LEFT
  else if (keys K_RIGHT || keys K_d) && bool_decide (d ≠ LEFT)
  then with_player_direction s RIGHT
  else s.

Definition update (s : TronGame) : TronGame :=
  if bool_decide (state s ≠ Playing) then s
  else
    (* AI decision *)
    let '(new_dir, agent') := Agent.decide (agent s) (enemy s) (player s) in
    let enemy1 := set_direction (enemy s) new_dir in
    (* Move *)
    let blocked := trail (player s) ∪ trail enemy1 in
    let p_nxt := next_pos (player s) None in
    let e_nxt := next_pos enemy1 None in
    let p_crash := negb (in_bounds (player s) (Some p_nxt))
                   || bool_decide (p_nxt ∈ blocked) in
    let e_crash := negb (in_bounds enemy1 (Some e_nxt))
                   || bool_decide (e_nxt ∈ blocked) in
    let head_on := bool_decide (p_nxt = e_nxt) in
    if p_crash && e_crash then
      {| player := player s; enemy := enemy1; agent := agent';
         state := Draw; score := score s; frame := frame s |}
    else if p_crash || head_on then
      {| player := player s; enemy := enemy1; agent := agent';
         state := Lose; score := score s; frame := frame s |}
    else if e_crash then
      {| player := player s; enemy := enemy1; agent := agent';
         state := Win; score := score s + 1; frame := frame s |}
    else
      {| player := move (player s); enemy := move enemy1; agent := agent';
         state := Playing; score := score s; frame := frame s + 1 |}.

(** One pass of the main loop of [run] without a restart key:
    [handle_input] then [update]. *)
Definition run_step (keys : Key → bool) (s : TronGame) : TronGame :=
  update (handle_input keys s).

(** [set_player_heading(r)] of the interface: the input collaborator
    reports the arrow key of the requested heading [r] and nothing else. *)
Definition keys_for (r : cell) (k : Key) : bool :=
  match k with
  | K_UP => bool_decide (r = UP)
  | K_DOWN => bool_decide (r = DOWN)
  | K_LEFT => bool_decide (r = LEFT)
  | K_RIGHT => bool_decide (r = RIGHT)
  | _ => false
  end.

Definition set_player_heading (r : cell) (s : TronGame) : TronGame :=
  handle_input (keys_for r) s.

(* ================================================================== *)
(** * Specification vocabulary *)

(* ------------------------------------------------------------------ *)
(** ** Grid paths *)

(** [b] is one of the four cardinal neighbours of [a]. *)
Definition adjacent (a b : cell) : Prop := ∃ d, d ∈ DIRS ∧ b = shift a d.

(** A cell an entity may step on: on the grid and not an obstacle. *)
Definition free (blocked : gset cell) (c : cell) : Prop :=
  inside c = true ∧ c ∉ blocked.

(** [path_to blocked start c p]: [p] is a sequence of cells from [start] to
    [c] in which every step goes to a cardinal neighbour that is on the grid
    and not blocked.  The first cell is [start] whatever it is. *)
Inductive path_to (blocked : gset cell) (start : cell)
    : cell → list cell → Prop :=
  | path_start : path_to blocked start start [start]
  | path_step c p n :
      path_to blocked start c p → adjacent c n → free blocked n →
      path_to blocked start n (p ++ [n]).

Definition reachable (blocked : gset cell) (start c : cell) : Prop :=
  ∃ p, path_to blocked start c p.

(** Every step of the list goes to a cardinal neighbour that is on the
    grid and not blocked. *)
Fixpoint steps_ok (blocked : gset cell) (p : list cell) : Prop :=
  match p with
  | a :: (b :: _) as rest => adjacent a b ∧ free blocked b ∧ steps_ok blocked rest
  | _ => True
  end.

(** [p] is a list of cells that starts at [start], ends at [goal] and
    only makes legal steps. *)
Definition grid_path (blocked : gset cell) (start goal : cell)
    (p : list cell) : Prop :=
  head p = Some start ∧ last p = Some goal ∧ steps_ok blocked p.

(** All the cells of the grid, as a list and as a finite set. *)
Definition grid_cells : list cell :=
  x ← seqZ 0 COLS; y ← seqZ 0 ROWS; [(x, y)].

Definition grid : gset cell := list_to_set grid_cells.

(* ------------------------------------------------------------------ *)
(** ** Comparisons *)

(** A three-way comparison that decides a strict total order. *)
Record compare_ok {A : Type} (cmp : A → A → comparison) : Prop := {
  cmp_eq : ∀ a b, cmp a b = Eq ↔ a = b;
  cmp_antisym : ∀ a b, cmp b a = CompOpp (cmp a b);
  cmp_trans : ∀ a b c, cmp a b = Lt → cmp b c = Lt → cmp a c = Lt
}.

Arguments cmp_eq {A cmp}.
Arguments cmp_antisym {A cmp}.
Arguments cmp_trans {A cmp}.

(** Lexicographic comparison of pairs, first component first. *)
Definition lex_compare {A B : Type} (cmpA : A → A → comparison)
    (cmpB : B → B → comparison) (x y : A * B) : comparison :=
  match cmpA x.1 y.1 with
  | Eq => cmpB x.2 y.2
  | c => c
  end.

(* ------------------------------------------------------------------ *)
(** ** Loop invariants of the search and of the fill *)

(** The entry pushed for the neighbour [n] of a node popped with cost [g]
    and path [path]. *)
Definition child (goal : cell) (g : Z) (path : list cell) (n : cell) : entry :=
  (g + 1 + heuristic n goal, g + 1, n, path ++ [n]).

(** What an entry of the frontier records. *)
Definition entry_ok (start goal : cell) (blocked : gset cell) (e : entry)
    : Prop :=
  entry_f e = entry_g e + heuristic (entry_node e) goal
  ∧ path_to blocked start (entry_node e) (entry_path e)
  ∧ Z.of_nat (length (entry_path e)) = entry_g e + 1.

(** The loop invariant: entries are genuine paths; the goal is never
    closed; the start is closed or on the frontier with cost 0; and each
    free neighbour of a closed cell is closed or on the frontier with a
    cost no larger than any path through that closed cell. *)
Record astar_inv (start goal : cell) (blocked : gset cell)
    (open_list : list entry) (closed : gset cell) : Prop := {
  inv_ok : ∀ e, e ∈ open_list → entry_ok start goal blocked e;
  inv_goal : goal ∉ closed;
  inv_start : start ∉ closed →
    ∃ e, e ∈ open_list ∧ entry_node e = start ∧ entry_g e = 0;
  inv_edge : ∀ c q n,
    c ∈ closed → path_to blocked start c q →
    adjacent c n → free blocked n → n ∉ closed →
    ∃ e, e ∈ open_list ∧ entry_node e = n
         ∧ entry_g e ≤ Z.of_nat (length q)
}.

Arguments inv_ok {start goal blocked open_list closed}.
Arguments inv_goal {start goal blocked open_list closed}.
Arguments inv_start {start goal blocked open_list closed}.
Arguments inv_edge {start goal blocked open_list closed}.

(** What a way of taking a cell from the queue must satisfy. *)
Definition pop_ok (pop : list cell → option (cell * list cell)) : Prop :=
  ∀ q, match pop q with
       | None => q = []
       | Some (c, q') => q ≡ₚ c :: q'
       end.

(** The cells a search or fill from [start] can ever hold. *)
Definition universe (G : gset cell) (start : cell) : gset cell :=
  G ∪ {[start]}.

(** Closed cells and frontier nodes stay in the universe of [start]. *)
Definition astar_bounded (G : gset cell) (start : cell)
    (open_list : list entry) (closed : gset cell) : Prop :=
  closed ⊆ universe G start
  ∧ ∀ e, e ∈ open_list → entry_node e ∈ universe G start.

(** Five units per cell still to close, one per frontier entry. *)
Definition astar_measure (G : gset cell) (start : cell)
    (open_list : list entry) (closed : gset cell) : nat :=
  (5 * (size (universe G start) - size closed) + length open_list)%nat.

(** The loop invariant of the fill. *)
Record flood_inv (G : gset cell) (start : cell) (blocked : gset cell)
    (visited : gset cell) (queue : list cell) : Prop := {
  finv_start : start ∈ visited;
  finv_sound : ∀ c, c ∈ visited → reachable blocked start c;
  finv_queue : ∀ c, c ∈ queue → c ∈ visited;
  finv_done : ∀ c n, c ∈ visited → c ∉ queue →
                     adjacent c n → free blocked n → n ∈ visited;
  finv_bound : visited ⊆ universe G start
}.

Arguments finv_start {G start blocked visited queue}.
Arguments finv_sound {G start blocked visited queue}.
Arguments finv_queue {G start blocked visited queue}.
Arguments finv_done {G start blocked visited queue}.
Arguments finv_bound {G start blocked visited queue}.

(* ------------------------------------------------------------------ *)
(** ** The tick, the fallback and the session *)

(** The heading [decide] gives the pursuer at the tick taken from [s]. *)
Definition pursuer_heading (s : TronGame) : cell :=
  (Agent.decide (agent s) (enemy s) (player s)).1.

(** The candidate next cells of the two cycles. *)
Definition player_target (s : TronGame) : cell :=
  shift (pos (player s)) (direction (player s)).

Definition pursuer_target (s : TronGame) : cell :=
  shift (pos (enemy s)) (pursuer_heading s).

(** The union of both trails before anyone moves. *)
Definition tick_blocked (s : TronGame) : gset cell :=
  trail (player s) ∪ trail (enemy s).

(** A candidate cell crashes when it is off the grid or blocked. *)
Definition crashes (blocked : gset cell) (c : cell) : Prop :=
  inside c = false ∨ c ∈ blocked.

Definition crashesb (blocked : gset cell) (c : cell) : bool :=
  negb (inside c) || bool_decide (c ∈ blocked).

(** A game with fresh cycles at the given cells and headings. *)
Definition fresh_game (pp pd ep ed : cell) : TronGame :=
  {| player := new_cycle pp pd; enemy := new_cycle ep ed;
     agent := new_agent; state := Playing; score := 0; frame := 0 |}.

(** A direction the fallback ranks: not the reverse of the heading, and its
    next cell is on the grid and not blocked. *)
Definition survival_ok (enemy : Cycle) (blocked : gset cell) (d : cell)
    : Prop :=
  d ≠ opposite (direction enemy)
  ∧ inside (shift (pos enemy) d) = true
  ∧ shift (pos enemy) d ∉ blocked.

Global Instance survival_ok_dec enemy blocked d :
  Decision (survival_ok enemy blocked d).
Proof. unfold survival_ok. apply _. Defined.

Definition survival_candidates (enemy : Cycle) (blocked : gset cell)
    : list cell :=
  filter (survival_ok enemy blocked) DIRS.

(** The open space behind the next cell, with that cell made an obstacle. *)
Definition survival_space (enemy : Cycle) (blocked : gset cell) (d : cell)
    : Z :=
  flood_fill_count (shift (pos enemy) d) (blocked ∪ {[shift (pos enemy) d]}).

(** The cycle's position is a cell of its own trail. *)
Definition cycle_ok (c : Cycle) : Prop := pos c ∈ trail c.

(** The states of a session: a fresh game ([reset], also on the restart
    key), then any interleaving of [handle_input] and [update]. *)
Inductive game_reachable : TronGame → Prop :=
  | reach_reset : game_reachable reset
  | reach_input keys s :
      game_reachable s → game_reachable (handle_input keys s)
  | reach_update s : game_reachable s → game_reachable (update s).

(* ------------------------------------------------------------------ *)
(** ** Concrete situations *)

(** A pursuer boxed into the corner by the player's trail. *)
Definition cornered_enemy : Cycle := new_cycle (0, 0) LEFT.

Definition cornering_player : Cycle :=
  {| pos := (1, 0); direction := RIGHT;
     trail := {[ (0, 1); (1, 1); (1, 0) ]}; alive := true |}.

(** A state of a session in which the player has turned twice between two
    ticks, and the terminal state the next tick ends in. *)
Definition reversed_game : TronGame :=
  set_player_heading LEFT (set_player_heading UP (update reset)).

Definition lost_game : TronGame := update reversed_game.

(* ------------------------------------------------------------------ *)
(** ** Sessions and further situations *)

(** [c] lies in the rectangle spanned by [a] and [b]. *)
Definition in_box (a b c : cell) : Prop :=
  Z.min a.1 b.1 ≤ c.1 ≤ Z.max a.1 b.1 ∧ Z.min a.2 b.2 ≤ c.2 ≤ Z.max a.2 b.2.

(** Frames of the main loop without a restart, one key state per frame. *)
Definition run_keys (ks : list (Key → bool)) (s : TronGame) : TronGame :=
  fold_left (λ s keys, run_step keys s) ks s.

(** No key is down. *)
Definition idle : Key → bool := λ _, false.

(** The heading the [if]/[elif] chain of [handle_input] selects from the
    current heading [d], given which of the four key pairs are down. *)
Definition steer (up down left right : bool) (d : cell) : cell :=
  if up && bool_decide (d ≠ DOWN) then UP
  else if down && bool_decide (d ≠ UP) then DOWN
  else if left && bool_decide (d ≠ RIGHT) then LEFT
  else if right && bool_decide (d ≠ LEFT) then RIGHT
  else d.

Definition steer_keys (keys : Key → bool) : cell → cell :=
  steer (keys K_UP || keys K_w) (keys K_DOWN || keys K_s)
        (keys K_LEFT || keys K_a) (keys K_RIGHT || keys K_d).

(** What every state of a session satisfies. *)
Definition game_inv (s : TronGame) : Prop :=
  inside (pos (player s)) = true ∧ inside (pos (enemy s)) = true
  ∧ pos (player s) ∈ trail (player s) ∧ pos (enemy s) ∈ trail (enemy s)
  ∧ trail (player s) ⊆ grid ∧ trail (enemy s) ⊆ grid
  ∧ trail (player s) ## trail (enemy s)
  ∧ Z.of_nat (size (trail (player s))) = frame s + 1
  ∧ Z.of_nat (size (trail (enemy s))) = frame s + 1
  ∧ alive (player s) = true ∧ alive (enemy s) = true
  ∧ ((state s = Win ∧ score s = 1) ∨ (state s ≠ Win ∧ score s = 0))
  ∧ ticks (agent s) = frame s + (if decide (state s = Playing) then 0 else 1).






(** A pursuer heading Left whose shortest path starts to its right. *)
Definition turning_enemy : Cycle := new_cycle (7, 5) LEFT.

Definition fleeing_player : Cycle := new_cycle (5, 5) RIGHT.

(** A running game with the pursuer boxed into the corner. *)
Definition boxed_game : TronGame :=
  {| player := cornering_player; enemy := cornered_enemy; agent := new_agent;
     state := Playing; score := 0; frame := 0 |}.

(* ================================================================== *)
(** * Properties *)

(** The searches run on concrete inputs only where a proof asks for it. *)
Arguments astar : simpl never.
Arguments astar_fuel : simpl never.
Arguments flood_fill_with : simpl never.
Arguments flood_fill_count : simpl never.
Arguments flood_fuel : simpl never.

Example astar_ex1 : astar (0, 0) (2, 0) ∅ = Some [(0, 0); (1, 0); (2, 0)].
Proof. vm_compute. reflexivity. Qed.

Example astar_ex2 :
  astar (50, 20) (15, 20) {[ (50, 20); (10, 20) ]} <> None.
Proof. vm_compute. discriminate. Qed.

Example update_reset_ex : state (update reset) = Playing
  /\ pos (enemy (update reset)) = (49, 20)
  /\ pos (player (update reset)) = (11, 20).
Proof. vm_compute. auto. Qed.

(* ------------------------------------------------------------------ *)
(** ** The heap *)

Lemma heappop_None (h : list entry) : heappop h = None ↔ h = [].
Proof.
  destruct h as [|x xs]; simpl; [done|].
  split; [|done].
  destruct (heappop xs) as [[m r]|]; [|done].
  by destruct (entry_ltb m x).
Qed.

Lemma heappop_perm (h : list entry) m r :
  heappop h = Some (m, r) → h ≡ₚ m :: r.
Proof.
  revert m r. induction h as [|x xs IH]; intros m r; simpl; [done|].
  destruct (heappop xs) as [[m' r']|] eqn:E.
  - specialize (IH _ _ eq_refl).
    destruct (entry_ltb m' x); intros [= <- <-].
    + rewrite IH. apply perm_swap.
    + by rewrite IH.
  - apply heappop_None in E as ->. by intros [= <- <-].
Qed.

Lemma entry_ltb_f (a b : entry) :
  entry_ltb a b = true → entry_f a ≤ entry_f b.
Proof.
  unfold entry_ltb, entry_compare.
  destruct (Z.compare_spec (entry_f a) (entry_f b)); try lia; done.
Qed.

Lemma entry_ltb_false_f (a b : entry) :
  entry_ltb a b = false → entry_f b ≤ entry_f a.
Proof.
  unfold entry_ltb, entry_compare.
  destruct (Z.compare_spec (entry_f a) (entry_f b)); try lia; done.
Qed.

(** The popped entry has the least [f] of the heap. *)
Lemma heappop_min (h : list entry) m r :
  heappop h = Some (m, r) → ∀ e, e ∈ h → entry_f m ≤ entry_f e.
Proof.
  revert m r. induction h as [|x xs IH]; intros m r; simpl; [done|].
  destruct (heappop xs) as [[m' r']|] eqn:E.
  - specialize (IH _ _ eq_refl).
    destruct (entry_ltb m' x) eqn:L; intros [= <- <-] e He.
    + apply elem_of_cons in He as [->|He]; [by apply entry_ltb_f|by apply IH].
    + apply entry_ltb_false_f in L.
      apply elem_of_cons in He as [->|He]; [lia|].
      specialize (IH e He). lia.
  - apply heappop_None in E as ->. intros [= <- <-] e He.
    apply elem_of_cons in He as [->|He]; [lia|]. by apply elem_of_nil in He.
Qed.

(** *** The tuple order is total, and [heappop] returns its least entry *)

Lemma compare_ok_refl {A} (cmp : A → A → comparison) a :
  compare_ok cmp → cmp a a = Eq.
Proof. intros H. by apply (cmp_eq H). Qed.

Lemma compare_ok_le_trans {A} (cmp : A → A → comparison) a b c :
  compare_ok cmp → cmp a b ≠ Gt → cmp b c ≠ Gt → cmp a c ≠ Gt.
Proof.
  intros H Hab Hbc.
  destruct (cmp a b) eqn:E1; [|clear Hab|done].
  { apply (cmp_eq H) in E1 as ->. done. }
  destruct (cmp b c) eqn:E2; [|clear Hbc|done].
  { apply (cmp_eq H) in E2 as <-. by rewrite E1. }
  by rewrite (cmp_trans H a b c E1 E2).
Qed.

Lemma Z_compare_ok : compare_ok Z.compare.
Proof.
  split.
  - apply Z.compare_eq_iff.
  - intros a b. apply Z.compare_antisym.
  - intros a b c. rewrite !Z.compare_lt_iff. lia.
Qed.

Lemma lex_compare_ok {A B} (cmpA : A → A → comparison)
    (cmpB : B → B → comparison) :
  compare_ok cmpA → compare_ok cmpB → compare_ok (lex_compare cmpA cmpB).
Proof.
  intros HA HB. split.
  - intros [a1 b1] [a2 b2]. unfold lex_compare; simpl.
    destruct (cmpA a1 a2) eqn:E.
    + apply (cmp_eq HA) in E as ->. rewrite (cmp_eq HB). split; congruence.
    + split; [done|]. intros [= -> ->].
      by rewrite (compare_ok_refl cmpA) in E.
    + split; [done|]. intros [= -> ->].
      by rewrite (compare_ok_refl cmpA) in E.
  - intros [a1 b1] [a2 b2]. unfold lex_compare; simpl.
    rewrite (cmp_antisym HA a1 a2). destruct (cmpA a1 a2); simpl; try done.
    apply (cmp_antisym HB).
  - intros [a1 b1] [a2 b2] [a3 b3]. unfold lex_compare; simpl.
    destruct (cmpA a1 a2) eqn:E1; [| |done].
    + apply (cmp_eq HA) in E1 as ->.
      destruct (cmpA a2 a3) eqn:E2; [|done|done].
      apply (cmp_trans HB).
    + destruct (cmpA a2 a3) eqn:E2; [| |done].
      * apply (cmp_eq HA) in E2 as <-. by rewrite E1.
      * by rewrite (cmp_trans HA a1 a2 a3 E1 E2).
Qed.

Lemma cell_compare_ok : compare_ok cell_compare.
Proof. apply (lex_compare_ok Z.compare Z.compare); apply Z_compare_ok. Qed.

Lemma path_compare_ok : compare_ok path_compare.
Proof.
  pose proof cell_compare_ok as HC. split.
  - intros p. induction p as [|a p IH]; intros [|b q]; simpl; try done.
    destruct (cell_compare a b) eqn:E.
    + apply (cmp_eq HC) in E as ->. rewrite IH. split; congruence.
    + split; [done|]. intros [= -> ->].
      by rewrite (compare_ok_refl cell_compare) in E.
    + split; [done|]. intros [= -> ->].
      by rewrite (compare_ok_refl cell_compare) in E.
  - intros p. induction p as [|a p IH]; intros [|b q]; simpl; try done.
    rewrite (cmp_antisym HC a b).
    destruct (cell_compare a b); simpl; [apply IH|done|done].
  - intros p. induction p as [|a p IH]; intros [|b q] [|c r]; simpl; try done.
    destruct (cell_compare a b) eqn:E1; [| |done].
    + apply (cmp_eq HC) in E1 as ->.
      destruct (cell_compare b c) eqn:E2; [|done|done].
      apply IH.
    + destruct (cell_compare b c) eqn:E2; [| |done].
      * apply (cmp_eq HC) in E2 as <-. by rewrite E1.
      * by rewrite (cmp_trans HC a b c E1 E2).
Qed.

(** [entry_compare] is the lexicographic order of the nested pairs that
    make up the tuple [(f, g, node, path)]. *)
Lemma entry_compare_lex (a b : entry) :
  entry_compare a b =
  lex_compare (lex_compare (lex_compare Z.compare Z.compare) cell_compare)
              path_compare a b.
Proof.
  destruct a as [[[f1 g1] n1] p1], b as [[[f2 g2] n2] p2].
  unfold entry_compare, lex_compare, entry_f, entry_g, entry_node, entry_path;
    simpl.
  destruct (f1 ?= f2), (g1 ?= g2), (cell_compare n1 n2); reflexivity.
Qed.

Lemma entry_compare_ok : compare_ok entry_compare.
Proof.
  assert (H : compare_ok
    (lex_compare (lex_compare (lex_compare Z.compare Z.compare) cell_compare)
                 path_compare)).
  { repeat apply lex_compare_ok; (apply Z_compare_ok || apply cell_compare_ok
                                  || apply path_compare_ok). }
  split.
  - intros a b. rewrite entry_compare_lex. apply (cmp_eq H).
  - intros a b. rewrite !entry_compare_lex. apply (cmp_antisym H).
  - intros a b c. rewrite !entry_compare_lex. apply (cmp_trans H).
Qed.

(** The popped entry is least in Python's tuple order, and two least
    entries are the same value. *)
Lemma heappop_least (h : list entry) m r :
  heappop h = Some (m, r) → ∀ e, e ∈ h → entry_compare m e ≠ Gt.
Proof.
  pose proof entry_compare_ok as HE.
  revert m r. induction h as [|x xs IH]; intros m r; simpl; [done|].
  destruct (heappop xs) as [[m' r']|] eqn:E.
  - specialize (IH _ _ eq_refl). unfold entry_ltb.
    destruct (entry_compare m' x) eqn:L; intros [= <- <-] e He;
      apply elem_of_cons in He as [->|He].
    + by rewrite (compare_ok_refl entry_compare).
    + apply (cmp_eq HE) in L as <-. by apply IH.
    + by rewrite L.
    + by apply IH.
    + by rewrite (compare_ok_refl entry_compare).
    + apply (compare_ok_le_trans entry_compare x m' e HE); [|by apply IH].
      rewrite (cmp_antisym HE m' x), L. done.
  - apply heappop_None in E as ->. intros [= <- <-] e He.
    apply list_elem_of_singleton in He as ->.
    by rewrite (compare_ok_refl entry_compare).
Qed.

(* ------------------------------------------------------------------ *)
(** ** Grid paths *)

Lemma inside_spec (c : cell) :
  inside c = true ↔ 0 ≤ c.1 < COLS ∧ 0 ≤ c.2 < ROWS.
Proof. unfold inside. rewrite !andb_true_iff. lia. Qed.

Lemma elem_of_DIRS (d : cell) :
  d ∈ DIRS ↔ d = UP ∨ d = DOWN ∨ d = LEFT ∨ d = RIGHT.
Proof. unfold DIRS. rewrite !elem_of_cons, elem_of_nil. tauto. Qed.

(** The Manhattan heuristic is consistent: one step changes it by at most
    one. *)
Lemma heuristic_consistent (a b goal : cell) :
  adjacent a b → heuristic a goal ≤ 1 + heuristic b goal.
Proof.
  intros (d & Hd & ->). apply elem_of_DIRS in Hd.
  unfold heuristic, shift, UP, DOWN, LEFT, RIGHT in *.
  destruct a as [ax ay], goal as [gx gy].
  destruct Hd as [-> | [-> | [-> | ->]]]; simpl; lia.
Qed.

Lemma path_to_length_pos blocked start c p :
  path_to blocked start c p → (0 < length p)%nat.
Proof. destruct 1; [simpl|rewrite length_app; simpl]; lia. Qed.

Lemma path_to_last blocked start c p :
  path_to blocked start c p → last p = Some c.
Proof. destruct 1; [done|]. by rewrite last_snoc. Qed.

Lemma path_to_head blocked start c p :
  path_to blocked start c p → head p = Some start.
Proof.
  induction 1 as [|c p n Hp IH]; [done|].
  destruct p; [done|]. done.
Qed.

(* ------------------------------------------------------------------ *)
(** ** A*: every returned path is a shortest path *)

Lemma astar_neighbor_spec goal blocked closed g current path open_list d :
  astar_neighbor goal blocked closed g current path open_list d =
  if decide ((shift current d ∉ closed) ∧ free blocked (shift current d))
  then child goal g path (shift current d) :: open_list
  else open_list.
Proof.
  unfold astar_neighbor, free, child, heappush, shift.
  set (n := (current.1 + d.1, current.2 + d.2)).
  assert (Hin : (current.1 + d.1 <? 0) || (current.2 + d.2 <? 0)
                || (current.1 + d.1 >=? COLS) || (current.2 + d.2 >=? ROWS)
                = negb (inside n)).
  { unfold inside, n; simpl. apply eq_true_iff_eq.
    rewrite negb_true_iff, !orb_true_iff, !andb_false_iff, !Z.ltb_lt,
      !Z.geb_le, !Z.leb_gt, !Z.ltb_ge. lia. }
  rewrite Hin.
  destruct (decide (n ∈ closed)).
  { rewrite decide_False; [done|]. intros [? _]; done. }
  destruct (inside n) eqn:Hi; simpl.
  - destruct (decide (n ∈ blocked)).
    + rewrite decide_False; [done|]. intros (_ & _ & ?); done.
    + rewrite decide_True; done.
  - rewrite decide_False; [done|]. intros (_ & ? & _); done.
Qed.

Lemma elem_of_astar_fold goal blocked closed g current path ds open_list e :
  e ∈ fold_left (astar_neighbor goal blocked closed g current path) ds open_list
  ↔ e ∈ open_list
    ∨ ∃ d, d ∈ ds ∧ (shift current d ∉ closed) ∧ free blocked (shift current d)
           ∧ e = child goal g path (shift current d).
Proof.
  revert open_list. induction ds as [|d ds IH]; intros open_list; simpl.
  - split; [by left|]. intros [?|(d & Hd & _)]; [done|].
    by apply elem_of_nil in Hd.
  - rewrite IH, astar_neighbor_spec. split.
    + intros [He|(d' & Hd' & H1 & H2 & ->)].
      * case_decide as Hc; [|by left].
        apply elem_of_cons in He as [->|He]; [|by left].
        right. exists d. rewrite elem_of_cons. naive_solver.
      * right. exists d'. rewrite elem_of_cons. naive_solver.
    + intros [He|(d' & Hd' & H1 & H2 & ->)].
      * left. case_decide; [apply elem_of_cons; by right|done].
      * apply elem_of_cons in Hd' as [->|Hd'].
        -- left. rewrite decide_True by done. apply elem_of_cons; by left.
        -- right. exists d'. naive_solver.
Qed.

Lemma length_astar_fold goal blocked closed g current path ds open_list :
  (length (fold_left (astar_neighbor goal blocked closed g current path)
                     ds open_list)
   ≤ length open_list + length ds)%nat.
Proof.
  revert open_list. induction ds as [|d ds IH]; intros open_list; simpl.
  - lia.
  - etrans; [apply IH|]. rewrite astar_neighbor_spec.
    case_decide; simpl; lia.
Qed.

Section AStarInvariant.
Variables (start goal : cell) (blocked : gset cell).

Lemma astar_inv_init :
  astar_inv start goal blocked (heappush [] (heuristic start goal, 0, start, [start])) ∅.
Proof.
  split.
  - intros e He. apply list_elem_of_singleton in He as ->.
    unfold entry_ok, entry_f, entry_g, entry_node, entry_path; simpl.
    split; [lia|]. split; [constructor|done].
  - set_solver.
  - intros _. eexists. split; [apply list_elem_of_singleton; done|done].
  - set_solver.
Qed.

(** Along any path to a cell that is not closed there is a frontier
    entry whose [f] does not exceed the cost of the path plus the
    heuristic at its end. *)
Lemma astar_frontier open_list closed c q :
  astar_inv start goal blocked open_list closed →
  path_to blocked start c q → c ∉ closed →
  ∃ e, e ∈ open_list
       ∧ entry_f e ≤ Z.of_nat (length q) - 1 + heuristic c goal.
Proof.
  intros Hinv Hq. induction Hq as [|c p n Hp IH Hadj Hfree]; intros Hc.
  - destruct (inv_start Hinv Hc) as (e & He & Hn & Hg).
    exists e. split; [done|].
    destruct (inv_ok Hinv e He) as (Hf & _). rewrite Hf, Hn, Hg.
    simpl. lia.
  - rewrite length_app; simpl.
    destruct (decide (c ∈ closed)) as [Hcl|Hcl].
    + destruct (inv_edge Hinv c p n Hcl Hp Hadj Hfree Hc)
        as (e & He & Hn & Hg).
      exists e. split; [done|].
      destruct (inv_ok Hinv e He) as (Hf & _). rewrite Hf, Hn. lia.
    + destruct (IH Hcl) as (e & He & Hle).
      exists e. split; [done|].
      pose proof (heuristic_consistent c n goal Hadj). lia.
Qed.

(** A popped entry that is not closed carries the least cost of any
    path to its node. *)
Lemma astar_popped_least open_list closed f g current path open' q :
  astar_inv start goal blocked open_list closed →
  heappop open_list = Some ((f, g, current, path), open') →
  current ∉ closed →
  path_to blocked start current q →
  g ≤ Z.of_nat (length q) - 1.
Proof.
  intros Hinv Hpop Hc Hq.
  destruct (astar_frontier _ _ _ _ Hinv Hq Hc) as (e & He & Hle).
  pose proof (heappop_min _ _ _ Hpop e He) as Hmin.
  assert (Hin : (f, g, current, path) ∈ open_list).
  { rewrite (heappop_perm _ _ _ Hpop). apply elem_of_cons; by left. }
  destruct (inv_ok Hinv _ Hin) as (Hf & _).
  unfold entry_f, entry_g, entry_node in *; simpl in *. lia.
Qed.

Lemma astar_inv_skip open_list closed e open' :
  astar_inv start goal blocked open_list closed →
  heappop open_list = Some (e, open') →
  entry_node e ∈ closed →
  astar_inv start goal blocked open' closed.
Proof.
  intros Hinv Hpop Hc.
  assert (Hmem : ∀ x, x ∈ open_list ↔ x = e ∨ x ∈ open').
  { intros x. rewrite (heappop_perm _ _ _ Hpop). apply elem_of_cons. }
  split.
  - intros x Hx. apply (inv_ok Hinv). apply Hmem. by right.
  - apply (inv_goal Hinv).
  - intros Hs. destruct (inv_start Hinv Hs) as (x & Hx & Hn & Hg).
    exists x. split; [|done].
    apply Hmem in Hx as [->|Hx]; [|done]. congruence.
  - intros c q n H1 H2 H3 H4 H5.
    destruct (inv_edge Hinv c q n H1 H2 H3 H4 H5) as (x & Hx & Hn & Hg).
    exists x. split; [|done].
    apply Hmem in Hx as [->|Hx]; [|done]. congruence.
Qed.

Lemma astar_inv_expand open_list closed f g current path open' :
  astar_inv start goal blocked open_list closed →
  heappop open_list = Some ((f, g, current, path), open') →
  current ≠ goal → current ∉ closed →
  astar_inv start goal blocked
    (fold_left
       (astar_neighbor goal blocked (closed ∪ {[current]}) g current path)
       DIRS open')
    (closed ∪ {[current]}).
Proof.
  intros Hinv Hpop Hng Hc.
  assert (Hmem : ∀ x, x ∈ open_list ↔ x = (f, g, current, path) ∨ x ∈ open').
  { intros x. rewrite (heappop_perm _ _ _ Hpop). apply elem_of_cons. }
  assert (Hin : (f, g, current, path) ∈ open_list) by (apply Hmem; by left).
  destruct (inv_ok Hinv _ Hin) as (Hf & Hpath & Hlen).
  unfold entry_f, entry_g, entry_node, entry_path in Hf, Hpath, Hlen;
    simpl in Hf, Hpath, Hlen.
  assert (Hkeep : ∀ x, x ∈ open_list → entry_node x ≠ current →
    x ∈ fold_left
          (astar_neighbor goal blocked (closed ∪ {[current]}) g current path)
          DIRS open').
  { intros x Hx Hne. apply elem_of_astar_fold. left.
    apply Hmem in Hx as [->|Hx]; [done|done]. }
  split.
  - intros x Hx. apply elem_of_astar_fold in Hx
      as [Hx|(d & Hd & Hncl & Hfree & ->)].
    + apply (inv_ok Hinv). apply Hmem. by right.
    + unfold entry_ok, child, entry_f, entry_g, entry_node, entry_path;
        simpl.
      split; [lia|]. split.
      * apply path_step with current; [done| |done]. by exists d.
      * rewrite length_app; simpl. lia.
  - pose proof (inv_goal Hinv). set_solver.
  - intros Hs.
    destruct (inv_start Hinv) as (x & Hx & Hn & Hg); [set_solver|].
    exists x. split; [|done]. apply Hkeep; [done|]. set_solver.
  - intros c q n Hcl Hq Hadj Hfree Hn.
    destruct (decide (c = current)) as [->|Hne].
    + destruct Hadj as (d & Hd & ->).
      exists (child goal g path (shift current d)). split.
      * apply elem_of_astar_fold. right. exists d. done.
      * split; [done|]. unfold child, entry_g; simpl.
        pose proof (astar_popped_least _ _ _ _ _ _ _ q Hinv Hpop Hc Hq). lia.
    + destruct (inv_edge Hinv c q n) as (x & Hx & Hxn & Hg);
        [set_solver|done|done|done|set_solver|].
      exists x. split; [|done]. apply Hkeep; [done|]. set_solver.
Qed.

(** Whatever the loop returns from a state that satisfies the invariant
    is a path to the goal at least as short as every other one. *)
Lemma astar_loop_shortest fuel open_list closed p :
  astar_inv start goal blocked open_list closed →
  astar_loop fuel goal blocked open_list closed = Some (Some p) →
  path_to blocked start goal p
  ∧ ∀ q, path_to blocked start goal q → (length p ≤ length q)%nat.
Proof.
  revert open_list closed.
  induction fuel as [|fuel IH]; intros open_list closed Hinv; simpl; [done|].
  destruct (heappop open_list) as [[[[[f g] current] path] open']|] eqn:Hpop;
    [|done].
  destruct (decide (current = goal)) as [->|Hng].
  - intros [= ->].
    assert (Hin : (f, g, goal, p) ∈ open_list).
    { rewrite (heappop_perm _ _ _ Hpop). apply elem_of_cons; by left. }
    destruct (inv_ok Hinv _ Hin) as (Hf & Hpath & Hlen).
    unfold entry_g, entry_node, entry_path in Hpath, Hlen;
      simpl in Hpath, Hlen.
    split; [done|]. intros q Hq.
    pose proof (astar_popped_least _ _ _ _ _ _ _ q Hinv Hpop
                  (inv_goal Hinv) Hq). lia.
  - destruct (decide (current ∈ closed)) as [Hc|Hc].
    + apply IH. by apply (astar_inv_skip _ _ _ _ Hinv Hpop).
    + apply IH. by apply (astar_inv_expand _ _ _ _ _ _ _ Hinv Hpop).
Qed.

End AStarInvariant.

(* ------------------------------------------------------------------ *)
(** ** The grid as a finite set, and termination of the search *)

Lemma inside_grid (c : cell) : inside c = true → c ∈ grid.
Proof.
  intros Hc. apply inside_spec in Hc. destruct c as [x y]; simpl in Hc.
  unfold grid, grid_cells. apply elem_of_list_to_set.
  apply list_elem_of_bind. exists x. split; [|apply elem_of_seqZ; lia].
  apply list_elem_of_bind. exists y. split; [|apply elem_of_seqZ; lia].
  by apply list_elem_of_singleton.
Qed.

Lemma size_list_to_set_le (l : list cell) :
  (size (list_to_set (C:=gset cell) l) ≤ length l)%nat.
Proof.
  induction l as [|x l IH].
  - rewrite list_to_set_nil, size_empty. simpl; lia.
  - rewrite list_to_set_cons, size_union_alt, size_singleton. simpl length.
    pose proof (subseteq_size (list_to_set (C:=gset cell) l ∖ {[x]})
                  (list_to_set l)) as Hs.
    assert (list_to_set (C:=gset cell) l ∖ {[x]} ⊆ list_to_set l)
      by set_solver.
    specialize (Hs H). lia.
Qed.

Lemma size_grid : (size grid ≤ Z.to_nat (COLS * ROWS))%nat.
Proof.
  etrans; [apply size_list_to_set_le|].
  assert (length grid_cells = Z.to_nat (COLS * ROWS)) as ->
    by (vm_compute; reflexivity).
  done.
Qed.

Typeclasses Opaque grid.
Opaque grid.

Lemma size_add_fresh (X : gset cell) (c : cell) :
  c ∉ X → size (X ∪ {[c]}) = S (size X).
Proof.
  intros Hc. rewrite size_union by set_solver. rewrite size_singleton. lia.
Qed.

Lemma size_add_le (X : gset cell) (c : cell) :
  (size (X ∪ {[c]}) ≤ S (size X))%nat.
Proof.
  destruct (decide (c ∈ X)) as [Hc|Hc].
  - assert (X ∪ {[c]} = X) as -> by set_solver. lia.
  - by rewrite size_add_fresh.
Qed.

Lemma heappop_length (h : list entry) m r :
  heappop h = Some (m, r) → length h = S (length r).
Proof. intros H. by rewrite (heappop_perm _ _ _ H). Qed.

Lemma astar_loop_S fuel goal blocked open_list closed :
  astar_loop (S fuel) goal blocked open_list closed =
  match heappop open_list with
  | None => Some None
  | Some ((f, g, current, path), open') =>
      if decide (current = goal) then Some (Some path)
      else if decide (current ∈ closed)
           then astar_loop fuel goal blocked open' closed
      else
        astar_loop fuel goal blocked
          (fold_left
             (astar_neighbor goal blocked (closed ∪ {[current]}) g current path)
             DIRS open')
          (closed ∪ {[current]})
  end.
Proof. reflexivity. Qed.

Lemma astar_loop_fuel_mono goal blocked fuel fuel' open_list closed r :
  astar_loop fuel goal blocked open_list closed = Some r →
  (fuel ≤ fuel')%nat →
  astar_loop fuel' goal blocked open_list closed = Some r.
Proof.
  revert fuel' open_list closed.
  induction fuel as [|fuel IH]; intros fuel' open_list closed; [done|].
  intros Hrun Hle. destruct fuel' as [|fuel']; [lia|].
  rewrite astar_loop_S in Hrun |- *.
  destruct (heappop open_list) as [[[[[f g] current] path] open']|]; [|done].
  destruct (decide (current = goal)); [done|].
  destruct (decide (current ∈ closed)); apply IH; (done || lia).
Qed.

Lemma astar_fuel_eq :
  astar_fuel = (5 * (Z.to_nat (COLS * ROWS) + 1) + 2)%nat.
Proof. vm_compute. reflexivity. Qed.

Lemma flood_fuel_eq : flood_fuel = (Z.to_nat (COLS * ROWS) + 3)%nat.
Proof. vm_compute. reflexivity. Qed.

(** *** Taking cells from the fill's queue *)

Lemma pop_last_ok : pop_ok pop_last.
Proof.
  intros q. unfold pop_last.
  destruct (reverse q) as [|c r] eqn:E.
  - apply (f_equal reverse) in E. by rewrite reverse_involutive in E.
  - apply (f_equal reverse) in E.
    rewrite reverse_involutive, reverse_cons in E. subst q.
    by rewrite Permutation_app_comm.
Qed.

Lemma pop_first_ok : pop_ok pop_first.
Proof. intros [|c q]; simpl; done. Qed.

Lemma flood_neighbor_spec blocked x y V Q d :
  flood_neighbor blocked x y (V, Q) d =
  if decide ((shift (x, y) d ∉ V) ∧ free blocked (shift (x, y) d))
  then (V ∪ {[shift (x, y) d]}, Q ++ [shift (x, y) d])
  else (V, Q).
Proof.
  unfold flood_neighbor, free, shift; simpl.
  set (n := (x + d.1, y + d.2)).
  destruct (decide (n ∉ V)) as [HV|HV].
  - rewrite (bool_decide_eq_true_2 _ HV); simpl.
    destruct (decide (n ∉ blocked)) as [Hb|Hb].
    + rewrite (bool_decide_eq_true_2 _ Hb); simpl.
      destruct (inside n) eqn:Hi.
      * by rewrite decide_True.
      * rewrite decide_False; [done|]. intros (_ & ? & _); done.
    + rewrite (bool_decide_eq_false_2 _ Hb); simpl.
      rewrite decide_False; [done|]. intros (_ & _ & ?); done.
  - rewrite (bool_decide_eq_false_2 _ HV); simpl.
    rewrite decide_False; [done|]. intros (? & _); done.
Qed.

(** The effect of one [for dx, dy in DIRS] pass from the cell [(x, y)]. *)
Lemma flood_fold_spec blocked x y ds V Q V' Q' :
  fold_left (flood_neighbor blocked x y) ds (V, Q) = (V', Q') →
  (∀ c, c ∈ V' ↔
        c ∈ V ∨ ∃ d, d ∈ ds ∧ c = shift (x, y) d ∧ free blocked c)
  ∧ (∀ c, c ∈ Q' ↔ c ∈ Q ∨ (c ∈ V' ∧ c ∉ V))
  ∧ (size V' + length Q = size V + length Q')%nat.
Proof.
  revert V Q. induction ds as [|d ds IH]; intros V Q.
  - intros [= <- <-]. split; [|split; [|done]].
    + intros c. split; [by left|]. intros [?|(d & Hd & _)]; [done|].
      by apply elem_of_nil in Hd.
    + intros c. tauto.
  - cbn [fold_left]. rewrite flood_neighbor_spec.
    set (n := shift (x, y) d).
    destruct (decide ((n ∉ V) ∧ free blocked n)) as [[HnV Hfree]|Hno];
      intros Hfold; destruct (IH _ _ Hfold) as (H1 & H2 & H3).
    + split; [|split].
      * intros c. rewrite H1, elem_of_union, elem_of_singleton. split.
        -- intros [[Hc| ->]|(d' & Hd' & Hc)]; [by left| |].
           ++ right. exists d. rewrite elem_of_cons. auto.
           ++ right. exists d'. rewrite elem_of_cons. auto.
        -- intros [Hc|(d' & Hd' & -> & Hf)]; [by left; left|].
           apply elem_of_cons in Hd' as [->|Hd'].
           ++ left; by right.
           ++ right. exists d'. auto.
      * intros c. rewrite H2, elem_of_app, list_elem_of_singleton,
          elem_of_union, elem_of_singleton.
        assert (Hn : n ∈ V').
        { apply H1. left. apply elem_of_union. right.
          by apply elem_of_singleton. }
        destruct (decide (c = n)) as [->|Hne]; [tauto|tauto].
      * rewrite length_app in H3. rewrite size_add_fresh in H3 by done.
        simpl length in H3. lia.
    + split; [|split; [done|done]].
      intros c. rewrite H1. split.
      * intros [Hc|(d' & Hd' & Hc)]; [by left|].
        right. exists d'. rewrite elem_of_cons. auto.
      * intros [Hc|(d' & Hd' & -> & Hf)]; [by left|].
        apply elem_of_cons in Hd' as [->|Hd'].
        -- left. fold n in Hf |- *.
           destruct (decide (n ∈ V)); [done|]. exfalso. by apply Hno.
        -- right. exists d'. auto.
Qed.

Lemma flood_loop_S pop fuel blocked visited queue :
  flood_loop pop (S fuel) blocked visited queue =
  match pop queue with
  | None => Some visited
  | Some ((x, y), queue') =>
      flood_loop pop fuel blocked
        (fold_left (flood_neighbor blocked x y) DIRS (visited, queue')).1
        (fold_left (flood_neighbor blocked x y) DIRS (visited, queue')).2
  end.
Proof. reflexivity. Qed.

Lemma flood_loop_fuel_mono pop blocked fuel fuel' visited queue r :
  flood_loop pop fuel blocked visited queue = Some r →
  (fuel ≤ fuel')%nat →
  flood_loop pop fuel' blocked visited queue = Some r.
Proof.
  revert fuel' visited queue.
  induction fuel as [|fuel IH]; intros fuel' visited queue; [done|].
  intros Hrun Hle. destruct fuel' as [|fuel']; [lia|].
  rewrite flood_loop_S in Hrun |- *.
  destruct (pop queue) as [[[x y] queue']|]; [|done].
  apply IH; [done|lia].
Qed.

(* ------------------------------------------------------------------ *)
(** ** Termination of the search, and the fill's invariant

    Both loops are bounded over any finite set [G] of at most [N] cells
    that holds every cell of the grid; [grid] is such a set. *)

Section Bounded.
Variable G : gset cell.
Variable N : nat.
Hypothesis G_inside : ∀ c, inside c = true → c ∈ G.
Hypothesis G_size : (size G ≤ N)%nat.

Lemma size_universe start : (size (universe G start) ≤ N + 1)%nat.
Proof.
  unfold universe. pose proof (size_add_le G start). lia.
Qed.

Section AStarTermination.
Variables (start goal : cell) (blocked : gset cell).

Lemma astar_loop_terminates fuel open_list closed :
  astar_bounded G start open_list closed →
  (astar_measure G start open_list closed < fuel)%nat →
  is_Some (astar_loop fuel goal blocked open_list closed).
Proof.
  revert open_list closed.
  induction fuel as [|fuel IH]; intros open_list closed [Hcl Hop] Hm;
    [lia|]. rewrite astar_loop_S.
  destruct (heappop open_list) as [[[[[f g] current] path] open']|] eqn:Hpop;
    [|done].
  destruct (decide (current = goal)); [done|].
  assert (Hmem : ∀ x, x ∈ open_list ↔ x = (f, g, current, path) ∨ x ∈ open').
  { intros x. rewrite (heappop_perm _ _ _ Hpop). apply elem_of_cons. }
  pose proof (heappop_length _ _ _ Hpop) as Hlen.
  unfold astar_measure in *.
  destruct (decide (current ∈ closed)) as [Hc|Hc].
  - apply IH; [|lia]. split; [done|].
    intros x Hx. apply Hop, Hmem. by right.
  - assert (Hcur : current ∈ universe G start).
    { apply (Hop (f, g, current, path)), Hmem. by left. }
    assert (Hsub : closed ∪ {[current]} ⊆ universe G start).
    { apply union_subseteq. split; [done|]. by apply singleton_subseteq_l. }
    pose proof (subseteq_size _ _ Hsub) as Hsz.
    rewrite size_add_fresh in Hsz by done.
    apply IH.
    + split; [done|]. intros x Hx.
      apply elem_of_astar_fold in Hx as [Hx|(d & _ & _ & [Hi _] & ->)].
      * apply Hop, Hmem. by right.
      * unfold child, entry_node, universe; cbn [fst snd].
        apply elem_of_union; left. by apply G_inside.
    + rewrite size_add_fresh by done.
      pose proof (length_astar_fold goal blocked (closed ∪ {[current]})
                    g current path DIRS open') as Hf.
      change (length DIRS) with 4%nat in Hf. lia.
Qed.

Lemma astar_run_terminates fuel :
  (5 * (N + 1) + 1 < fuel)%nat →
  is_Some (astar_run fuel start goal blocked).
Proof.
  intros Hfuel. apply astar_loop_terminates.
  - split; [apply empty_subseteq|]. intros e He.
    apply list_elem_of_singleton in He as ->.
    unfold entry_node, universe; cbn [fst snd].
    apply elem_of_union; right. by apply elem_of_singleton.
  - unfold astar_measure. pose proof (size_universe start) as Hu.
    rewrite size_empty. unfold heappush. simpl length. lia.
Qed.

End AStarTermination.

Section FloodFill.
Variable pop : list cell → option (cell * list cell).
Hypothesis pop_spec : pop_ok pop.
Variables (start : cell) (blocked : gset cell).

Lemma flood_inv_init : flood_inv G start blocked {[start]} [start].
Proof.
  split.
  - by apply elem_of_singleton.
  - intros c ->%elem_of_singleton. exists [start]. constructor.
  - intros c ->%list_elem_of_singleton. by apply elem_of_singleton.
  - intros c n ->%elem_of_singleton Hq. exfalso. apply Hq.
    by apply list_elem_of_singleton.
  - unfold universe. apply union_subseteq_r.
Qed.

Lemma flood_inv_step visited queue x y queue' V' Q' :
  flood_inv G start blocked visited queue →
  pop queue = Some ((x, y), queue') →
  fold_left (flood_neighbor blocked x y) DIRS (visited, queue') = (V', Q') →
  flood_inv G start blocked V' Q'
  ∧ (size V' + length queue = S (size visited + length Q'))%nat.
Proof.
  intros Hinv Hpop Hfold.
  pose proof (pop_spec queue) as Hperm. rewrite Hpop in Hperm.
  assert (Hmem : ∀ c, c ∈ queue ↔ c = (x, y) ∨ c ∈ queue').
  { intros c. rewrite Hperm. apply elem_of_cons. }
  destruct (flood_fold_spec _ _ _ _ _ _ _ _ Hfold) as (H1 & H2 & H3).
  clear Hfold.
  assert (Hxy : (x, y) ∈ visited).
  { apply (finv_queue Hinv), Hmem. by left. }
  split; [split|].
  - apply H1. left. apply (finv_start Hinv).
  - intros c Hc. apply H1 in Hc as [Hc|(d & Hd & -> & Hf)].
    + by apply (finv_sound Hinv).
    + destruct (finv_sound Hinv _ Hxy) as [p Hp].
      exists (p ++ [shift (x, y) d]).
      apply path_step with (x, y); [done| |done]. by exists d.
  - intros c Hc. apply H2 in Hc as [Hc|[Hc _]]; [|done].
    apply H1. left. apply (finv_queue Hinv), Hmem. by right.
  - intros c n Hc Hq Hadj Hf.
    destruct (decide (c ∈ visited)) as [HcV|HcV].
    + assert (Hq' : c ∉ queue') by (intros ?; apply Hq, H2; by left).
      destruct (decide (c = (x, y))) as [->|Hne].
      * destruct Hadj as (d & Hd & ->). apply H1. right. by exists d.
      * apply H1. left. apply (finv_done Hinv c n); [done| |done|done].
        intros [?|?]%Hmem; done.
    + exfalso. apply Hq, H2. by right.
  - intros c Hc. apply H1 in Hc as [Hc|(d & Hd & -> & [Hi _])].
    + by apply (finv_bound Hinv).
    + unfold universe. apply elem_of_union; left. by apply G_inside.
  - apply Permutation_length in Hperm. simpl length in Hperm. lia.
Qed.

(** On an empty queue the visited set is closed under free steps. *)
Lemma flood_inv_complete visited c :
  flood_inv G start blocked visited [] → reachable blocked start c → c ∈ visited.
Proof.
  intros Hinv [p Hp]. induction Hp as [|c p n Hp IH Hadj Hf].
  - apply (finv_start Hinv).
  - apply (finv_done Hinv c n); [done| |done|done].
    intros H. by apply elem_of_nil in H.
Qed.

Lemma flood_loop_exact fuel visited queue r :
  flood_inv G start blocked visited queue →
  flood_loop pop fuel blocked visited queue = Some r →
  ∀ c, c ∈ r ↔ reachable blocked start c.
Proof.
  revert visited queue.
  induction fuel as [|fuel IH]; intros visited queue Hinv; [done|].
  rewrite flood_loop_S.
  destruct (pop queue) as [[[x y] queue']|] eqn:Hpop.
  - destruct (fold_left (flood_neighbor blocked x y) DIRS (visited, queue'))
      as [V' Q'] eqn:Hfold.
    apply IH. by apply (flood_inv_step visited queue x y queue').
  - intros [= <-] c.
    pose proof (pop_spec queue) as Hq. rewrite Hpop in Hq. subst queue.
    split; [apply (finv_sound Hinv)|by apply flood_inv_complete].
Qed.

Lemma flood_loop_terminates fuel visited queue :
  flood_inv G start blocked visited queue →
  (size (universe G start) - size visited + length queue < fuel)%nat →
  is_Some (flood_loop pop fuel blocked visited queue).
Proof.
  revert visited queue.
  induction fuel as [|fuel IH]; intros visited queue Hinv Hm; [lia|].
  rewrite flood_loop_S.
  destruct (pop queue) as [[[x y] queue']|] eqn:Hpop; [|done].
  destruct (fold_left (flood_neighbor blocked x y) DIRS (visited, queue'))
    as [V' Q'] eqn:Hfold.
  destruct (flood_inv_step visited queue x y queue' V' Q' Hinv Hpop Hfold)
    as [Hinv' Hsz].
  cbn [fst snd].
  apply IH; [done|].
  pose proof (subseteq_size _ _ (finv_bound Hinv')).
  pose proof (subseteq_size _ _ (finv_bound Hinv)).
  lia.
Qed.

Lemma flood_run_exact fuel :
  (N + 2 < fuel)%nat →
  ∃ visited,
    flood_run pop fuel start blocked = Some visited
    ∧ ∀ c, c ∈ visited ↔ reachable blocked start c.
Proof.
  intros Hfuel.
  destruct (flood_loop_terminates fuel {[start]} [start])
    as [r Hr]; [apply flood_inv_init| |].
  - pose proof (size_universe start) as Hu.
    rewrite size_singleton. simpl length. lia.
  - exists r. split; [done|].
    apply (flood_loop_exact fuel {[start]} [start]); [|done].
    apply flood_inv_init.
Qed.

End FloodFill.
End Bounded.

(** [astar] is the value the loop returns: the search ends within
    [astar_fuel] rounds, and more fuel does not change its result. *)
Lemma astar_run_total start goal blocked fuel :
  (astar_fuel ≤ fuel)%nat →
  astar_run fuel start goal blocked = Some (astar start goal blocked).
Proof.
  intros Hle. unfold astar.
  destruct (astar_run_terminates grid (Z.to_nat (COLS * ROWS))
              inside_grid size_grid start goal blocked astar_fuel) as [r Hr].
  { rewrite astar_fuel_eq. generalize (Z.to_nat (COLS * ROWS)). lia. }
  rewrite Hr. unfold astar_run in *.
  by apply astar_loop_fuel_mono with astar_fuel.
Qed.

(** The fill ends within [flood_fuel] rounds, more fuel changes nothing,
    and what it returns is the set of reachable cells. *)
Lemma flood_run_total pop start blocked :
  pop_ok pop →
  ∃ visited,
    (∀ fuel, (flood_fuel ≤ fuel)%nat →
             flood_run pop fuel start blocked = Some visited)
    ∧ (∀ c, c ∈ visited ↔ reachable blocked start c)
    ∧ flood_fill_with pop start blocked = Z.of_nat (size visited).
Proof.
  intros Hpop.
  destruct (flood_run_exact grid (Z.to_nat (COLS * ROWS))
              inside_grid size_grid pop Hpop start blocked flood_fuel)
    as (r & Hr & Hex).
  { rewrite flood_fuel_eq. generalize (Z.to_nat (COLS * ROWS)). lia. }
  exists r. split; [|split; [done|]].
  - intros fuel Hle. unfold flood_run in *.
    by apply flood_loop_fuel_mono with flood_fuel.
  - unfold flood_fill_with. by rewrite Hr.
Qed.

(** The result of [astar], when it is a path, is a shortest one. *)
Lemma astar_shortest start goal blocked p :
  astar start goal blocked = Some p →
  path_to blocked start goal p
  ∧ ∀ q, path_to blocked start goal q → (length p ≤ length q)%nat.
Proof.
  intros Hp.
  pose proof (astar_run_total start goal blocked astar_fuel (le_n _)) as Hrun.
  rewrite Hp in Hrun.
  apply (astar_loop_shortest start goal blocked) in Hrun; [done|].
  apply astar_inv_init.
Qed.

(* ------------------------------------------------------------------ *)
(** ** Paths as plain lists *)

Lemma steps_ok_snoc blocked p c n :
  steps_ok blocked p → last p = Some c → adjacent c n → free blocked n →
  steps_ok blocked (p ++ [n]).
Proof.
  induction p as [|a [|b p] IH]; intros Hs Hl Ha Hf; [done| |].
  - simpl in Hl. injection Hl as ->. simpl. done.
  - destruct Hs as (H1 & H2 & H3). split; [done|]. split; [done|].
    apply IH; done.
Qed.

Lemma steps_ok_snoc_inv blocked p c n :
  steps_ok blocked (p ++ [n]) → last p = Some c →
  steps_ok blocked p ∧ adjacent c n ∧ free blocked n.
Proof.
  induction p as [|a [|b p] IH]; intros Hs Hl; [done| |].
  - simpl in Hl. injection Hl as ->. simpl in Hs. tauto.
  - destruct Hs as (H1 & H2 & H3).
    destruct (IH H3 Hl) as (H4 & H5 & H6). simpl. tauto.
Qed.

Lemma path_to_grid_path blocked start goal p :
  path_to blocked start goal p ↔ grid_path blocked start goal p.
Proof.
  split.
  - intros Hp. split; [|split].
    + by apply path_to_head in Hp.
    + by apply path_to_last in Hp.
    + induction Hp as [|c p n Hp IH Ha Hf]; [done|].
      apply steps_ok_snoc with c; [done| |done|done].
      by apply path_to_last in Hp.
  - revert goal. induction p as [|n p IH] using rev_ind;
      intros goal (Hh & Hl & Hs); [done|].
    rewrite last_snoc in Hl. injection Hl as <-.
    destruct (last p) as [c|] eqn:Hc.
    + destruct (steps_ok_snoc_inv _ _ _ _ Hs Hc) as (H1 & H2 & H3).
      apply path_step with c; [|done|done].
      apply IH. split; [|done]. destruct p; [done|]. exact Hh.
    + apply last_None in Hc as ->. simpl in Hh. injection Hh as <-.
      constructor.
Qed.

(* ------------------------------------------------------------------ *)
(** ** A*: completeness, a blocked goal, a blocked start *)

Lemma astar_loop_complete start goal blocked fuel open_list closed q :
  astar_inv start goal blocked open_list closed →
  astar_loop fuel goal blocked open_list closed = Some None →
  path_to blocked start goal q → False.
Proof.
  revert open_list closed.
  induction fuel as [|fuel IH]; intros open_list closed Hinv; simpl; [done|].
  destruct (heappop open_list) as [[[[[f g] current] path] open']|] eqn:Hpop.
  - destruct (decide (current = goal)) as [->|Hng]; [done|].
    destruct (decide (current ∈ closed)) as [Hc|Hc].
    + apply IH. by apply (astar_inv_skip _ _ _ _ _ _ _ Hinv Hpop).
    + apply IH. by apply (astar_inv_expand _ _ _ _ _ _ _ _ _ _ Hinv Hpop).
  - intros _ Hq. apply heappop_None in Hpop as ->.
    destruct (astar_frontier _ _ _ _ _ _ q Hinv Hq (inv_goal Hinv))
      as (e & He & _).
    by apply elem_of_nil in He.
Qed.

(** Whenever some path exists, [astar] returns one. *)
Lemma astar_complete start goal blocked q :
  path_to blocked start goal q → is_Some (astar start goal blocked).
Proof.
  intros Hq.
  pose proof (astar_run_total start goal blocked astar_fuel (le_n _)) as Hrun.
  destruct (astar start goal blocked) as [p|]; [done|].
  exfalso. apply (astar_loop_complete start goal blocked) with (q := q) in Hrun;
    [done|apply astar_inv_init|done].
Qed.

(** A blocked goal is never pushed, so it is never popped. *)
Lemma astar_loop_blocked_goal goal blocked fuel open_list closed r :
  goal ∈ blocked →
  (∀ e, e ∈ open_list → entry_node e ≠ goal) →
  astar_loop fuel goal blocked open_list closed = Some r → r = None.
Proof.
  intros Hg. revert open_list closed.
  induction fuel as [|fuel IH]; intros open_list closed Hop; [done|].
  rewrite astar_loop_S.
  destruct (heappop open_list) as [[[[[f g] current] path] open']|] eqn:Hpop;
    [|by intros [= <-]].
  assert (Hmem : ∀ x, x ∈ open_list ↔ x = (f, g, current, path) ∨ x ∈ open').
  { intros x. rewrite (heappop_perm _ _ _ Hpop). apply elem_of_cons. }
  destruct (decide (current = goal)) as [->|Hng].
  { exfalso. apply (Hop (f, g, goal, path)); [|done]. apply Hmem; by left. }
  destruct (decide (current ∈ closed)) as [Hc|Hc]; apply IH.
  - intros x Hx. apply Hop, Hmem. by right.
  - intros x Hx.
    apply elem_of_astar_fold in Hx as [Hx|(d & _ & _ & [_ Hb] & ->)].
    + apply Hop, Hmem. by right.
    + unfold child, entry_node; simpl. intros Heq. by rewrite Heq in Hb.
Qed.

Lemma astar_blocked_goal start goal blocked :
  start ≠ goal → goal ∈ blocked → astar start goal blocked = None.
Proof.
  intros Hne Hg.
  pose proof (astar_run_total start goal blocked astar_fuel (le_n _)) as Hrun.
  apply astar_loop_blocked_goal in Hrun; [done|done|].
  intros e He. apply list_elem_of_singleton in He as ->. done.
Qed.

Lemma astar_same_start start blocked : astar start start blocked = Some [start].
Proof.
  pose proof (astar_run_total start start blocked (S astar_fuel)) as Hrun.
  unfold astar_run in Hrun. rewrite astar_loop_S in Hrun.
  cbn [heappop heappush] in Hrun.
  rewrite decide_True in Hrun by done.
  specialize (Hrun ltac:(lia)). by injection Hrun.
Qed.

(** Once the start is closed, whether it is an obstacle is never looked
    at again. *)
Lemma astar_neighbor_blocked_start start goal blocked closed g current path
    open_list d :
  start ∈ closed →
  astar_neighbor goal (blocked ∪ {[start]}) closed g current path open_list d
  = astar_neighbor goal blocked closed g current path open_list d.
Proof.
  intros Hs. unfold astar_neighbor.
  set (n := (current.1 + d.1, current.2 + d.2)).
  destruct (decide (n ∈ closed)) as [Hc|Hc]; [done|].
  destruct ((current.1 + d.1 <? 0) || (current.2 + d.2 <? 0)
            || (current.1 + d.1 >=? COLS) || (current.2 + d.2 >=? ROWS));
    [done|].
  assert (Hne : n ≠ start) by (intros ->; done).
  destruct (decide (n ∈ blocked)) as [Hb|Hb].
  - rewrite decide_True; [done|]. apply elem_of_union; by left.
  - rewrite decide_False; [done|].
    intros [?| ->%elem_of_singleton]%elem_of_union; done.
Qed.

Lemma astar_fold_blocked_start start goal blocked closed g current path ds
    open_list :
  start ∈ closed →
  fold_left (astar_neighbor goal (blocked ∪ {[start]}) closed g current path)
            ds open_list
  = fold_left (astar_neighbor goal blocked closed g current path) ds open_list.
Proof.
  intros Hs. revert open_list. induction ds as [|d ds IH]; intros open_list;
    simpl; [done|].
  by rewrite IH, astar_neighbor_blocked_start.
Qed.

Lemma astar_loop_blocked_start start goal blocked fuel open_list closed :
  start ∈ closed →
  astar_loop fuel goal (blocked ∪ {[start]}) open_list closed
  = astar_loop fuel goal blocked open_list closed.
Proof.
  revert open_list closed.
  induction fuel as [|fuel IH]; intros open_list closed Hs; [done|].
  rewrite !astar_loop_S.
  destruct (heappop open_list) as [[[[[f g] current] path] open']|]; [|done].
  destruct (decide (current = goal)); [done|].
  destruct (decide (current ∈ closed)); [by apply IH|].
  rewrite astar_fold_blocked_start by (apply elem_of_union; by left).
  apply IH. apply elem_of_union; by left.
Qed.

Lemma astar_run_blocked_start start goal blocked fuel :
  astar_run fuel start goal (blocked ∪ {[start]})
  = astar_run fuel start goal blocked.
Proof.
  destruct fuel as [|fuel]; [done|].
  unfold astar_run. rewrite !astar_loop_S. cbn [heappop heappush].
  destruct (decide (start = goal)); [done|].
  rewrite decide_False by apply not_elem_of_empty.
  rewrite astar_fold_blocked_start
    by (apply elem_of_union; right; by apply elem_of_singleton).
  apply astar_loop_blocked_start.
  apply elem_of_union; right; by apply elem_of_singleton.
Qed.

Lemma astar_blocked_start start goal blocked :
  astar start goal (blocked ∪ {[start]}) = astar start goal blocked.
Proof.
  pose proof (astar_run_total start goal blocked astar_fuel (le_n _)) as H1.
  pose proof (astar_run_total start goal (blocked ∪ {[start]}) astar_fuel
                (le_n _)) as H2.
  rewrite astar_run_blocked_start in H2. congruence.
Qed.

(* ------------------------------------------------------------------ *)
(** ** The tick *)

Lemma in_bounds_Some (c : Cycle) (n : cell) : in_bounds c (Some n) = inside n.
Proof. by destruct n. Qed.

Lemma next_pos_Some (c : Cycle) (d : cell) :
  next_pos c (Some d) = shift (pos c) d.
Proof. done. Qed.

Lemma next_pos_None (c : Cycle) : next_pos c None = shift (pos c) (direction c).
Proof. done. Qed.

Lemma crashesb_spec blocked c : crashesb blocked c = true ↔ crashes blocked c.
Proof.
  unfold crashesb, crashes.
  rewrite orb_true_iff, negb_true_iff, bool_decide_eq_true. done.
Qed.

Lemma crashesb_false blocked c :
  crashesb blocked c = false ↔ ¬ crashes blocked c.
Proof.
  rewrite <- crashesb_spec. destruct (crashesb blocked c); split; try done.
Qed.

Lemma crashesb_cases blocked c :
  (crashesb blocked c = true ∧ crashes blocked c)
  ∨ (crashesb blocked c = false ∧ ¬ crashes blocked c).
Proof.
  destruct (crashesb blocked c) eqn:E; [left|right]; (split; [done|]).
  - by apply crashesb_spec.
  - by apply crashesb_false.
Qed.

(** [update] in a running game, branch by branch. *)
Lemma update_playing (s : TronGame) :
  state s = Playing →
  update s =
  let d := Agent.decide (agent s) (enemy s) (player s) in
  let enemy1 := set_direction (enemy s) d.1 in
  let p_crash := crashesb (tick_blocked s) (player_target s) in
  let e_crash := crashesb (tick_blocked s) (pursuer_target s) in
  let head_on := bool_decide (player_target s = pursuer_target s) in
  if p_crash && e_crash then
    {| player := player s; enemy := enemy1; agent := d.2;
       state := Draw; score := score s; frame := frame s |}
  else if p_crash || head_on then
    {| player := player s; enemy := enemy1; agent := d.2;
       state := Lose; score := score s; frame := frame s |}
  else if e_crash then
    {| player := player s; enemy := enemy1; agent := d.2;
       state := Win; score := score s + 1; frame := frame s |}
  else
    {| player := move (player s); enemy := move enemy1; agent := d.2;
       state := Playing; score := score s; frame := frame s + 1 |}.
Proof.
  intros Hs. unfold update, pursuer_target, pursuer_heading, player_target,
    tick_blocked, crashesb.
  rewrite Hs. rewrite bool_decide_eq_false_2 by (intros H; by apply H).
  destruct (Agent.decide (agent s) (enemy s) (player s)) as [new_dir agent'].
  cbv zeta. rewrite !in_bounds_Some, !next_pos_None. reflexivity.
Qed.

Lemma update_terminal (s : TronGame) : state s ≠ Playing → update s = s.
Proof. intros Hs. unfold update. by rewrite bool_decide_eq_true_2. Qed.

(** C1. Tick resolution precedence.  In a running game, with [blocked] the
    union of both trails before the move and the two candidate cells taken
    from the player's heading and from the heading [decide] returns: if both
    candidates crash the state becomes Draw; else if the player's candidate
    crashes or the candidates coincide it becomes Lose; else if the
    pursuer's candidate crashes it becomes Win and the score grows by one;
    else both cycles move to their candidates, both trails gain the new
    cell, the frame counter advances and the state stays Playing.  A head-on
    on a free cell gives Lose. *)
Theorem tick_resolution_precedence (s : TronGame) :
  state s = Playing →
  let blocked := tick_blocked s in
  let p := player_target s in
  let e := pursuer_target s in
  (crashes blocked p ∧ crashes blocked e →
     state (update s) = Draw ∧ score (update s) = score s)
  ∧ (¬ (crashes blocked p ∧ crashes blocked e) →
     crashes blocked p ∨ p = e →
     state (update s) = Lose ∧ score (update s) = score s)
  ∧ (¬ crashes blocked p → p ≠ e → crashes blocked e →
     state (update s) = Win ∧ score (update s) = score s + 1)
  ∧ (¬ crashes blocked p → p ≠ e → ¬ crashes blocked e →
     state (update s) = Playing
     ∧ pos (player (update s)) = p
     ∧ pos (enemy (update s)) = e
     ∧ trail (player (update s)) = trail (player s) ∪ {[p]}
     ∧ trail (enemy (update s)) = trail (enemy s) ∪ {[e]}
     ∧ frame (update s) = frame s + 1
     ∧ score (update s) = score s)
  ∧ (p = e → inside p = true → p ∉ blocked → state (update s) = Lose).
Proof.
  intros Hs blocked p e. rewrite (update_playing s Hs). cbv zeta.
  fold blocked p e.
  destruct (crashesb_cases blocked p) as [[Hpb Hp]|[Hpb Hp]],
    (crashesb_cases blocked e) as [[Heb He]|[Heb He]];
    rewrite Hpb, Heb; cbn [andb orb];
    try (destruct (bool_decide (p = e)) eqn:Hpe;
         [apply bool_decide_eq_true in Hpe|apply bool_decide_eq_false in Hpe]);
    cbn [state score frame player enemy move pos trail];
    rewrite ?next_pos_None; repeat split; try done; try tauto;
    intros _ Hi Hb; exfalso; destruct Hp as [Hp|Hp]; [congruence|done].
Qed.

Lemma tick_resolution_precedence_witness :
  state (fresh_game (5, 5) RIGHT (6, 6) LEFT) = Playing
  ∧ player_target (fresh_game (5, 5) RIGHT (6, 6) LEFT) = (6, 5)
  ∧ pursuer_target (fresh_game (5, 5) RIGHT (6, 6) LEFT) = (6, 5)
  ∧ state (update (fresh_game (5, 5) RIGHT (6, 6) LEFT)) = Lose.
Proof.
  split; [reflexivity|]. split; [vm_compute; reflexivity|].
  split; [vm_compute; reflexivity|].
  apply (tick_resolution_precedence
           (fresh_game (5, 5) RIGHT (6, 6) LEFT) eq_refl).
  - vm_compute; reflexivity.
  - vm_compute; reflexivity.
  - vm_compute. discriminate.
Defined.

Lemma adjacent_ne (a b : cell) : adjacent a b → a ≠ b.
Proof.
  intros (d & Hd & ->) Heq. apply elem_of_DIRS in Hd.
  destruct a as [x y]. unfold shift in Heq. simpl in Heq.
  injection Heq as Hx Hy.
  destruct Hd as [-> | [-> | [-> | ->]]]; simpl in Hx, Hy; lia.
Qed.

(** A free neighbour of the start is found in one step, whatever the start
    is. *)
Lemma astar_one_step start n blocked :
  adjacent start n → free blocked n →
  astar start n blocked = Some [start; n].
Proof.
  intros Ha Hf.
  assert (Hq : path_to blocked start n ([start] ++ [n])).
  { apply path_step with start; [constructor|done|done]. }
  destruct (astar_complete _ _ _ _ Hq) as [p Hp].
  destruct (astar_shortest _ _ _ _ Hp) as [Hpath Hmin].
  specialize (Hmin _ Hq). rewrite Hp. f_equal.
  pose proof (path_to_head _ _ _ _ Hpath) as Hh.
  pose proof (path_to_last _ _ _ _ Hpath) as Hl.
  pose proof (adjacent_ne _ _ Ha) as Hne.
  destruct p as [|a [|b [|c p]]]; simpl in Hh, Hl, Hmin.
  - done.
  - congruence.
  - congruence.
  - lia.
Qed.

(** With every cell of the grid but the start blocked, nothing but the
    start can be reached. *)
Lemma reachable_walled start c :
  reachable (grid ∖ {[start]}) start c → c = start.
Proof.
  intros [p Hp]. induction Hp as [|c p n Hp IH Ha [Hi Hb]]; [done|].
  destruct (decide (n = start)) as [|Hne]; [done|].
  exfalso. apply Hb. apply elem_of_difference. split.
  - by apply inside_grid.
  - intros Hn. by apply elem_of_singleton in Hn.
Qed.

Lemma astar_walled start goal :
  goal ≠ start → astar start goal (grid ∖ {[start]}) = None.
Proof.
  intros Hne. destruct (astar start goal (grid ∖ {[start]})) as [p|] eqn:Hp;
    [|done].
  exfalso. apply Hne. apply reachable_walled.
  exists p. by apply astar_shortest.
Qed.

(* ------------------------------------------------------------------ *)
(** ** The pathfinder *)

(** C2. Pathfinder optimality.  Whenever [astar start goal blocked] returns
    a path, the path leads from [start] to [goal] by steps to cardinal
    neighbours that are on the grid and not blocked, and no such path is
    strictly shorter. *)
Theorem astar_returns_shortest_path start goal blocked p :
  astar start goal blocked = Some p →
  grid_path blocked start goal p
  ∧ ∀ q, grid_path blocked start goal q → ¬ (length q < length p)%nat.
Proof.
  intros Hp. destruct (astar_shortest _ _ _ _ Hp) as [Hpath Hmin].
  split; [by apply path_to_grid_path|].
  intros q Hq%path_to_grid_path. specialize (Hmin q Hq). lia.
Qed.

Lemma astar_returns_shortest_path_witness :
  astar (0, 0) (2, 0) {[ (1, 0) ]}
  = Some [(0, 0); (0, 1); (1, 1); (2, 1); (2, 0)]
  ∧ grid_path {[ (1, 0) ]} (0, 0) (2, 0)
      [(0, 0); (0, 1); (1, 1); (2, 1); (2, 0)]
  ∧ ∀ q, grid_path {[ (1, 0) ]} (0, 0) (2, 0) q → ¬ (length q < 5)%nat.
Proof.
  split; [vm_compute; reflexivity|].
  apply (astar_returns_shortest_path (0, 0) (2, 0) {[ (1, 0) ]}
           [(0, 0); (0, 1); (1, 1); (2, 1); (2, 0)]).
  vm_compute; reflexivity.
Defined.

(** C6. Degenerate start.  A search whose start is its goal returns the
    one-cell path [[start]], also when the start is an obstacle; for any
    goal, making the start an obstacle changes nothing in the result of the
    search; and from a start that is an obstacle the search still expands
    the start: a goal that is a free neighbour is reached in one step.
    Only the neighbours that are pushed are tested against [blocked]. *)
Theorem astar_start_is_never_rejected start goal blocked :
  astar start start blocked = Some [start]
  ∧ astar start start (blocked ∪ {[start]}) = Some [start]
  ∧ astar start goal (blocked ∪ {[start]}) = astar start goal blocked
  ∧ (adjacent start goal → free blocked goal →
     astar start goal (blocked ∪ {[start]}) = Some [start; goal]).
Proof.
  split; [apply astar_same_start|].
  split; [apply astar_same_start|].
  split; [apply astar_blocked_start|].
  intros Ha Hf. rewrite astar_blocked_start. by apply astar_one_step.
Qed.

Lemma astar_start_is_never_rejected_witness :
  astar (0, 0) (1, 0) ({[ (5, 5) ]} ∪ {[ (0, 0) ]}) = Some [(0, 0); (1, 0)].
Proof.
  apply (astar_start_is_never_rejected (0, 0) (1, 0) {[ (5, 5) ]}).
  - exists RIGHT. split; [|reflexivity]. apply elem_of_DIRS. auto.
  - split; [reflexivity|]. intros H. apply elem_of_singleton in H.
    discriminate H.
Defined.

(* ------------------------------------------------------------------ *)
(** ** The reachability evaluator *)

Lemma reachable_grid_path blocked start c :
  reachable blocked start c ↔ ∃ p, grid_path blocked start c p.
Proof.
  unfold reachable. split; intros [p Hp]; exists p; by apply path_to_grid_path.
Qed.

(** The fill's count under any discipline of taking cells from the queue. *)
Lemma flood_fill_with_exact (pop : list cell → option (cell * list cell))
    (start : cell) (blocked R : gset cell) :
  pop_ok pop →
  (∀ c, c ∈ R ↔ reachable blocked start c) →
  flood_fill_with pop start blocked = Z.of_nat (size R).
Proof.
  intros Hpop HR.
  destruct (flood_run_total pop start blocked Hpop) as (v & _ & Hv & ->).
  assert (v = R) as ->; [|done].
  apply set_eq. intros c. by rewrite Hv, HR.
Qed.

Lemma flood_fill_count_pos start blocked : 1 ≤ flood_fill_count start blocked.
Proof.
  destruct (flood_run_total pop_last start blocked pop_last_ok)
    as (v & _ & Hv & Hc).
  unfold flood_fill_count. rewrite Hc.
  assert (Hs : start ∈ v) by (apply Hv; exists [start]; constructor).
  destruct (size v) eqn:E; [|lia].
  apply size_empty_inv in E. exfalso.
  apply (not_elem_of_empty (C:=gset cell) start). by apply E.
Qed.

(** C8. Reachability evaluator exactness.  [flood_fill_count start blocked]
    is the number of elements of the set of cells that can be reached from
    [start] by steps to cardinal neighbours that are on the grid and not
    blocked, [start] itself included; a fill that takes the oldest queued
    cell first (breadth first) instead of the newest (as the code does)
    gives the same count. *)
Theorem flood_fill_count_exact start blocked :
  ∃ R : gset cell,
    (∀ c, c ∈ R ↔ ∃ p, grid_path blocked start c p)
    ∧ start ∈ R
    ∧ flood_fill_count start blocked = Z.of_nat (size R)
    ∧ flood_fill_with pop_first start blocked = Z.of_nat (size R).
Proof.
  destruct (flood_run_total pop_last start blocked pop_last_ok)
    as (R & _ & HR & Hc).
  exists R. split; [|split; [|split]].
  - intros c. by rewrite HR, reachable_grid_path.
  - apply HR. exists [start]. constructor.
  - done.
  - by apply flood_fill_with_exact; [apply pop_first_ok|].
Qed.

(** The fill's count when only the start can be reached. *)
Lemma flood_fill_count_walled start :
  flood_fill_count start (grid ∖ {[start]}) = 1.
Proof.
  unfold flood_fill_count.
  rewrite (flood_fill_with_exact pop_last start (grid ∖ {[start]}) {[start]}).
  - by rewrite size_singleton.
  - apply pop_last_ok.
  - intros c. split.
    + intros Hc. apply elem_of_singleton in Hc as ->.
      exists [start]. constructor.
    + intros Hc. apply elem_of_singleton. by apply reachable_walled.
Qed.

(** C9. Termination.  For every start, goal and obstacle set the search
    loop returns within [astar_fuel] rounds and the fill loop within
    [flood_fuel] rounds, further rounds do not change what they return, and
    what they return is the value of [astar] and the set counted by
    [flood_fill_count].  With every cell of the grid but the start an
    obstacle, the fill returns 1 and the search for any other goal returns
    [None]. *)
Theorem search_and_fill_terminate start goal blocked :
  (∀ fuel, (astar_fuel ≤ fuel)%nat →
           astar_run fuel start goal blocked
           = Some (astar start goal blocked))
  ∧ (∃ v, (∀ fuel, (flood_fuel ≤ fuel)%nat →
                   flood_run pop_last fuel start blocked = Some v)
          ∧ flood_fill_count start blocked = Z.of_nat (size v))
  ∧ flood_fill_count start (grid ∖ {[start]}) = 1
  ∧ (goal ≠ start → astar start goal (grid ∖ {[start]}) = None).
Proof.
  split; [|split; [|split]].
  - intros fuel Hle. by apply astar_run_total.
  - destruct (flood_run_total pop_last start blocked pop_last_ok)
      as (v & Hv & _ & Hc).
    by exists v.
  - apply flood_fill_count_walled.
  - apply astar_walled.
Qed.

(* ------------------------------------------------------------------ *)
(** ** The survival fallback *)

Lemma survival_step_spec enemy blocked best d :
  Agent.survival_step enemy blocked (opposite (direction enemy)) best d =
  if decide (survival_ok enemy blocked d)
  then if survival_space enemy blocked d >? best.2
       then (d, survival_space enemy blocked d) else best
  else best.
Proof.
  unfold Agent.survival_step, survival_space.
  rewrite next_pos_Some.
  set (n := shift (pos enemy) d).
  change ((0 <=? n.1) && (n.1 <? COLS) && (0 <=? n.2) && (n.2 <? ROWS))
    with (inside n).
  destruct (decide (survival_ok enemy blocked d)) as [(H1 & H2 & H3)|Hno].
  - fold n in H2, H3. rewrite decide_False by done. rewrite H2. cbn [negb].
    by rewrite decide_False.
  - destruct (decide (d = opposite (direction enemy))); [done|].
    destruct (inside n) eqn:Hi; cbn [negb]; [|done].
    destruct (decide (n ∈ blocked)); [done|].
    exfalso. apply Hno. done.
Qed.

(** The fold of the fallback over any list of directions: either nothing
    beats the incoming best, or the result is the first candidate of
    greatest space. *)
Lemma survival_fold enemy blocked ds bd bs :
  ((∀ d, d ∈ filter (survival_ok enemy blocked) ds →
         survival_space enemy blocked d ≤ bs)
   ∧ fold_left
       (Agent.survival_step enemy blocked (opposite (direction enemy)))
       ds (bd, bs) = (bd, bs))
  ∨ ∃ i r,
      fold_left
        (Agent.survival_step enemy blocked (opposite (direction enemy)))
        ds (bd, bs) = (r, survival_space enemy blocked r)
      ∧ filter (survival_ok enemy blocked) ds !! i = Some r
      ∧ bs < survival_space enemy blocked r
      ∧ (∀ d, d ∈ filter (survival_ok enemy blocked) ds →
              survival_space enemy blocked d ≤ survival_space enemy blocked r)
      ∧ (∀ j d, (j < i)%nat →
              filter (survival_ok enemy blocked) ds !! j = Some d →
              survival_space enemy blocked d < survival_space enemy blocked r).
Proof.
  revert bd bs. induction ds as [|d ds IH]; intros bd bs.
  - left. split; [|done]. intros d Hd. by apply elem_of_nil in Hd.
  - cbn [fold_left]. rewrite survival_step_spec.
    destruct (decide (survival_ok enemy blocked d)) as [Hok|Hok].
    + rewrite (filter_cons_True _ _ _ Hok). cbn [snd].
      destruct (Z.gtb_spec (survival_space enemy blocked d) bs) as [Hgt|Hle].
      * destruct (IH d (survival_space enemy blocked d))
          as [[Hall Hres]|(i & r & Hres & Hi & Hbs & Hall & Hearly)].
        -- right. exists 0%nat, d. split; [done|]. split; [done|].
           split; [lia|]. split.
           ++ intros d' [->|Hd']%elem_of_cons; [lia|by apply Hall].
           ++ intros j d' Hj. lia.
        -- right. exists (S i), r. split; [done|]. split; [done|].
           split; [lia|]. split.
           ++ intros d' [->|Hd']%elem_of_cons; [lia|by apply Hall].
           ++ intros [|j] d' Hj Hd'.
              ** injection Hd' as <-. lia.
              ** apply (Hearly j); [lia|done].
      * destruct (IH bd bs)
          as [[Hall Hres]|(i & r & Hres & Hi & Hbs & Hall & Hearly)].
        -- left. split; [|done].
           intros d' [->|Hd']%elem_of_cons; [lia|by apply Hall].
        -- right. exists (S i), r. split; [done|]. split; [done|].
           split; [lia|]. split.
           ++ intros d' [->|Hd']%elem_of_cons; [lia|by apply Hall].
           ++ intros [|j] d' Hj Hd'.
              ** injection Hd' as <-. lia.
              ** apply (Hearly j); [lia|done].
    + rewrite (filter_cons_False _ _ _ Hok). apply IH.
Qed.

Lemma survival_space_pos enemy blocked d :
  1 ≤ survival_space enemy blocked d.
Proof. apply flood_fill_count_pos. Qed.

Lemma survival_direction_fold enemy blocked :
  Agent._survival_direction enemy blocked =
  (fold_left (Agent.survival_step enemy blocked (opposite (direction enemy)))
             DIRS (direction enemy, -1)).1.
Proof. reflexivity. Qed.

Lemma survival_direction_cases enemy blocked :
  (survival_candidates enemy blocked = []
   ∧ Agent._survival_direction enemy blocked = direction enemy)
  ∨ ∃ i,
      survival_candidates enemy blocked !! i
      = Some (Agent._survival_direction enemy blocked)
      ∧ (∀ d, d ∈ survival_candidates enemy blocked →
           survival_space enemy blocked d
           ≤ survival_space enemy blocked
               (Agent._survival_direction enemy blocked))
      ∧ (∀ j d, (j < i)%nat →
           survival_candidates enemy blocked !! j = Some d →
           survival_space enemy blocked d
           < survival_space enemy blocked
               (Agent._survival_direction enemy blocked)).
Proof.
  rewrite survival_direction_fold. unfold survival_candidates.
  destruct (survival_fold enemy blocked DIRS (direction enemy) (-1))
    as [[Hall Hres]|(i & r & Hres & Hi & Hbs & Hall & Hearly)].
  - left. rewrite Hres. split; [|reflexivity].
    destruct (filter (survival_ok enemy blocked) DIRS) as [|d l]; [done|].
    exfalso.
    specialize (Hall d ltac:(apply elem_of_cons; by left)).
    pose proof (survival_space_pos enemy blocked d). lia.
  - right. rewrite Hres. exists i. cbn [fst].
    split; [exact Hi|]. split; [exact Hall|exact Hearly].
Qed.






(* ------------------------------------------------------------------ *)
(** ** Trails, positions and the states a game can reach *)

Lemma new_cycle_ok (p d : cell) : cycle_ok (new_cycle p d).
Proof.
  unfold cycle_ok, new_cycle; simpl. apply elem_of_union; right.
  by apply elem_of_singleton.
Qed.

(** [handle_input] writes the player's heading and nothing else. *)
Lemma handle_input_frame keys s :
  handle_input keys s
  = with_player_direction s (direction (player (handle_input keys s))).
Proof.
  unfold handle_input.
  repeat (match goal with
          | |- context [if ?b then _ else _] => destruct b
          end; [reflexivity|]).
  by destruct s as [[? ? ? ?] ? ? ? ? ?].
Qed.

Lemma handle_input_direction keys s :
  direction (player (handle_input keys s)) = direction (player s)
  ∨ (direction (player (handle_input keys s)) = UP
     ∧ direction (player s) ≠ DOWN)
  ∨ (direction (player (handle_input keys s)) = DOWN
     ∧ direction (player s) ≠ UP)
  ∨ (direction (player (handle_input keys s)) = LEFT
     ∧ direction (player s) ≠ RIGHT)
  ∨ (direction (player (handle_input keys s)) = RIGHT
     ∧ direction (player s) ≠ LEFT).
Proof.
  unfold handle_input.
  destruct ((keys K_UP || keys K_w)
            && bool_decide (direction (player s) ≠ DOWN)) eqn:E1.
  { apply andb_true_iff in E1 as [_ H%bool_decide_eq_true]. auto. }
  destruct ((keys K_DOWN || keys K_s)
            && bool_decide (direction (player s) ≠ UP)) eqn:E2.
  { apply andb_true_iff in E2 as [_ H%bool_decide_eq_true]. auto. }
  destruct ((keys K_LEFT || keys K_a)
            && bool_decide (direction (player s) ≠ RIGHT)) eqn:E3.
  { apply andb_true_iff in E3 as [_ H%bool_decide_eq_true]. auto 6. }
  destruct ((keys K_RIGHT || keys K_d)
            && bool_decide (direction (player s) ≠ LEFT)) eqn:E4.
  { apply andb_true_iff in E4 as [_ H%bool_decide_eq_true]. auto 6. }
  by left.
Qed.

(** One call of [handle_input] never turns a heading of [DIRS] into its
    reverse. *)
Lemma handle_input_no_reverse keys s :
  direction (player s) ∈ DIRS →
  direction (player (handle_input keys s)) ∈ DIRS
  ∧ direction (player (handle_input keys s))
    ≠ opposite (direction (player s)).
Proof.
  intros Hd.
  destruct (handle_input_direction keys s)
    as [-> | [[-> Hn] | [[-> Hn] | [[-> Hn] | [-> Hn]]]]].
  - split; [done|].
    apply elem_of_DIRS in Hd as [-> | [-> | [-> | ->]]]; discriminate.
  - split; [apply elem_of_DIRS; auto|].
    apply elem_of_DIRS in Hd as [Hd | [Hd | [Hd | Hd]]];
      rewrite Hd in Hn |- *; (discriminate || done).
  - split; [apply elem_of_DIRS; auto|].
    apply elem_of_DIRS in Hd as [Hd | [Hd | [Hd | Hd]]];
      rewrite Hd in Hn |- *; (discriminate || done).
  - split; [apply elem_of_DIRS; auto|].
    apply elem_of_DIRS in Hd as [Hd | [Hd | [Hd | Hd]]];
      rewrite Hd in Hn |- *; (discriminate || done).
  - split; [apply elem_of_DIRS; auto|].
    apply elem_of_DIRS in Hd as [Hd | [Hd | [Hd | Hd]]];
      rewrite Hd in Hn |- *; (discriminate || done).
Qed.

(** What [update] does to the two cycles. *)
Lemma update_cycles (s : TronGame) :
  (player (update s) = player s
   ∧ pos (enemy (update s)) = pos (enemy s)
   ∧ trail (enemy (update s)) = trail (enemy s)
   ∧ (state s ≠ Playing ∨ state (update s) ≠ Playing))
  ∨ (state s = Playing ∧ state (update s) = Playing
     ∧ player (update s) = move (player s)
     ∧ enemy (update s)
       = move (set_direction (enemy s) (pursuer_heading s))
     ∧ ¬ crashes (tick_blocked s) (player_target s)
     ∧ ¬ crashes (tick_blocked s) (pursuer_target s)).
Proof.
  destruct (decide (state s = Playing)) as [Hs|Hs].
  2:{ left. rewrite (update_terminal s Hs). auto. }
  rewrite (update_playing s Hs). cbv zeta.
  destruct (crashesb_cases (tick_blocked s) (player_target s))
    as [[Hpb Hp]|[Hpb Hp]],
    (crashesb_cases (tick_blocked s) (pursuer_target s))
    as [[Heb He]|[Heb He]];
    rewrite Hpb, Heb; cbn [andb orb];
    try (destruct (bool_decide (player_target s = pursuer_target s)));
    cbn [state player enemy set_direction pos trail];
    first [ left; repeat split; try done; right; discriminate
          | right; repeat split; done ].
Qed.

Lemma update_player_direction (s : TronGame) :
  direction (player (update s)) = direction (player s).
Proof.
  destruct (update_cycles s) as [(-> & _)|(_ & _ & -> & _)]; done.
Qed.

(** Every reachable state keeps both positions on their trails and the
    player's heading among the four directions. *)
Lemma game_reachable_inv (s : TronGame) :
  game_reachable s →
  cycle_ok (player s) ∧ cycle_ok (enemy s) ∧ direction (player s) ∈ DIRS.
Proof.
  induction 1 as [|keys s Hr (Hp & He & Hd)|s Hr (Hp & He & Hd)].
  - split; [apply new_cycle_ok|]. split; [apply new_cycle_ok|].
    apply elem_of_DIRS. auto.
  - rewrite handle_input_frame. unfold cycle_ok in *. simpl.
    split; [done|]. split; [done|].
    by apply handle_input_no_reverse.
  - rewrite update_player_direction. split; [|split; [|done]].
    + destruct (update_cycles s) as [(-> & _)|(_ & _ & -> & _)]; [done|].
      unfold cycle_ok, move; simpl. apply elem_of_union; right.
      by apply elem_of_singleton.
    + destruct (update_cycles s) as [(_ & H1 & H2 & _)|(_ & _ & _ & -> & _)].
      * unfold cycle_ok. by rewrite H1, H2.
      * unfold cycle_ok, move; simpl. apply elem_of_union; right.
        by apply elem_of_singleton.
Qed.

(** C4. Trail and position invariant.  In every state a game can reach,
    both positions are on their own trails, and they still are after a
    tick; a tick never removes a cell from a trail; a trail has exactly one
    more cell after the tick precisely when its cycle changed position,
    which happens precisely when the game was running and is still running
    after the tick; a tick that ends in a terminal state leaves both trails
    as they were.  A freshly created cycle is on its trail. *)
Theorem trail_position_invariant (s : TronGame) :
  game_reachable s →
  (cycle_ok (player s) ∧ cycle_ok (enemy s))
  ∧ (cycle_ok (player (update s)) ∧ cycle_ok (enemy (update s)))
  ∧ (trail (player s) ⊆ trail (player (update s))
     ∧ trail (enemy s) ⊆ trail (enemy (update s)))
  ∧ (size (trail (player (update s))) = S (size (trail (player s)))
     ↔ pos (player (update s)) ≠ pos (player s))
  ∧ (size (trail (enemy (update s))) = S (size (trail (enemy s)))
     ↔ pos (enemy (update s)) ≠ pos (enemy s))
  ∧ (pos (player (update s)) ≠ pos (player s)
     ↔ state s = Playing ∧ state (update s) = Playing)
  ∧ (pos (enemy (update s)) ≠ pos (enemy s)
     ↔ state s = Playing ∧ state (update s) = Playing)
  ∧ (state (update s) ≠ Playing →
     trail (player (update s)) = trail (player s)
     ∧ trail (enemy (update s)) = trail (enemy s))
  ∧ (∀ p d, cycle_ok (new_cycle p d)).
Proof.
  intros Hr.
  destruct (game_reachable_inv s Hr) as (Hp & He & _).
  destruct (game_reachable_inv (update s) (reach_update s Hr))
    as (Hp' & He' & _).
  split; [done|]. split; [done|].
  destruct (update_cycles s)
    as [(H1 & H2 & H3 & Hst)|(Hs & Hs' & H1 & H2 & Hnp & Hne)].
  - rewrite H1, H2, H3.
    repeat split; try done; try lia; try tauto.
    apply new_cycle_ok.
  - assert (Hpf : player_target s ∉ trail (player s)).
    { intros Hin. apply Hnp. right. apply elem_of_union. by left. }
    assert (Hef : pursuer_target s ∉ trail (enemy s)).
    { intros Hin. apply Hne. right. apply elem_of_union. by right. }
    assert (Hpm : player_target s ≠ pos (player s)).
    { intros Heq. apply Hpf. by rewrite Heq. }
    assert (Hem : pursuer_target s ≠ pos (enemy s)).
    { intros Heq. apply Hef. by rewrite Heq. }
    rewrite H1, H2. unfold move. rewrite !next_pos_None.
    cbn [pos trail direction set_direction].
    fold (player_target s). fold (pursuer_target s).
    rewrite !size_add_fresh by done.
    repeat split; try done; try apply union_subseteq_l.
    apply new_cycle_ok.
Qed.

Lemma trail_position_invariant_witness :
  (cycle_ok (player reset) ∧ cycle_ok (enemy reset))
  ∧ (cycle_ok (player (update reset)) ∧ cycle_ok (enemy (update reset)))
  ∧ (trail (player reset) ⊆ trail (player (update reset))
     ∧ trail (enemy reset) ⊆ trail (enemy (update reset))).
Proof.
  pose proof (trail_position_invariant reset reach_reset)
    as (H1 & H2 & H3 & _).
  split; [exact H1|]. split; [exact H2|exact H3].
Defined.

(* ------------------------------------------------------------------ *)
(** ** Terminal states and the player's heading *)

Lemma opposite_involutive (d : cell) : opposite (opposite d) = d.
Proof. destruct d as [x y]. unfold opposite; simpl. f_equal; lia. Qed.

Lemma lost_game_reachable : game_reachable lost_game.
Proof.
  unfold lost_game, reversed_game, set_player_heading.
  apply reach_update, reach_input, reach_input, reach_update, reach_reset.
Qed.

(** The claim of C5 fails for [set_player_heading]: in the terminal state
    [lost_game], which a session reaches, a heading request changes the
    player's heading. *)
Lemma terminal_heading_request_changes_heading :
  game_reachable lost_game
  ∧ state lost_game = Lose
  ∧ direction (player lost_game) = LEFT
  ∧ direction (player (set_player_heading UP lost_game)) = UP
  ∧ set_player_heading UP lost_game ≠ lost_game.
Proof.
  split; [apply lost_game_reachable|].
  assert (H1 : state lost_game = Lose) by (vm_compute; reflexivity).
  assert (H2 : direction (player lost_game) = LEFT)
    by (vm_compute; reflexivity).
  assert (H3 : direction (player (set_player_heading UP lost_game)) = UP)
    by (vm_compute; reflexivity).
  split; [exact H1|]. split; [exact H2|]. split; [exact H3|].
  intros Heq. rewrite Heq, H2 in H3. clear Heq H1 H2. discriminate H3.
Qed.

(** C5, as amended.  In a terminal state [update] changes nothing at all.
    [handle_input] never changes the state, the positions, the trails, the
    pursuer, the agent, the score or the frame counter: the one thing it
    may write, in a terminal state as in a running game, is the player's
    heading, and it writes it under the no-reverse rule of a running game.
    The heading is left as it is or becomes one of the four directions,
    never the reverse of the heading found if that is one of the four
    directions, as it is in every state a game can reach; a request for
    the reverse is ignored.  So neither call leaves a terminal state; a
    fresh game from [reset] is running. *)
Theorem terminal_states_absorb (s : TronGame) :
  state s ≠ Playing →
  update s = s
  ∧ (∀ keys,
       handle_input keys s
       = with_player_direction s (direction (player (handle_input keys s))))
  ∧ (∀ keys,
       state (handle_input keys s) = state s
       ∧ pos (player (handle_input keys s)) = pos (player s)
       ∧ trail (player (handle_input keys s)) = trail (player s)
       ∧ alive (player (handle_input keys s)) = alive (player s)
       ∧ enemy (handle_input keys s) = enemy s
       ∧ agent (handle_input keys s) = agent s
       ∧ score (handle_input keys s) = score s
       ∧ frame (handle_input keys s) = frame s)
  ∧ state (update s) ≠ Playing
  ∧ (∀ keys, state (handle_input keys s) ≠ Playing)
  ∧ state reset = Playing
  ∧ (∀ keys,
       direction (player (handle_input keys s)) = direction (player s)
       ∨ (direction (player (handle_input keys s)) ∈ DIRS
          ∧ direction (player (handle_input keys s))
            ≠ opposite (direction (player s))))
  ∧ (∀ keys,
       direction (player s) ∈ DIRS →
       direction (player (handle_input keys s)) ∈ DIRS
       ∧ direction (player (handle_input keys s))
         ≠ opposite (direction (player s)))
  ∧ (game_reachable s →
     ∀ keys,
       direction (player (handle_input keys s)) ∈ DIRS
       ∧ direction (player (handle_input keys s))
         ≠ opposite (direction (player s)))
  ∧ (∀ r, r ∈ DIRS → r = opposite (direction (player s)) →
          set_player_heading r s = s).
Proof.
  intros Hs. split; [by apply update_terminal|].
  split; [intros keys; apply handle_input_frame|].
  split; [intros keys; rewrite handle_input_frame; done|].
  split; [by rewrite update_terminal|].
  split; [intros keys; by rewrite handle_input_frame|].
  split; [done|].
  split; [|split; [|split]].
  - intros keys.
    destruct (handle_input_direction keys s)
      as [-> | [[-> Hn] | [[-> Hn] | [[-> Hn] | [-> Hn]]]]]; [by left|..];
      right; (split; [apply elem_of_DIRS; auto|]);
      intros Ho; apply Hn; rewrite <- (opposite_involutive (direction _));
      by rewrite <- Ho.
  - intros keys Hd. by apply handle_input_no_reverse.
  - intros Hr keys. apply handle_input_no_reverse.
    by destruct (game_reachable_inv s Hr) as (_ & _ & Hd).
  - intros r Hin Hopp.
    assert (Hdir : direction (player s) = opposite r)
      by (by rewrite Hopp, opposite_involutive).
    unfold set_player_heading, handle_input. rewrite Hdir.
    apply elem_of_DIRS in Hin as [-> | [-> | [-> | ->]]]; reflexivity.
Qed.

Lemma terminal_states_absorb_witness :
  update lost_game = lost_game
  ∧ state (handle_input (keys_for UP) lost_game) = state lost_game
  ∧ direction (player (handle_input (keys_for UP) lost_game))
    ≠ opposite (direction (player lost_game))
  ∧ direction (player (handle_input (keys_for RIGHT) lost_game))
    ≠ opposite (direction (player lost_game)).
Proof.
  assert (Hs : state lost_game ≠ Playing) by (vm_compute; discriminate).
  pose proof (terminal_states_absorb lost_game Hs)
    as (H1 & _ & H3 & _ & _ & _ & _ & _ & H9 & _).
  split; [exact H1|].
  split; [destruct (H3 (keys_for UP)) as (H4 & _); exact H4|].
  split.
  - exact (proj2 (H9 lost_game_reachable (keys_for UP))).
  - exact (proj2 (H9 lost_game_reachable (keys_for RIGHT))).
Defined.

(** The claim of C7 fails for sequences of heading requests: after the
    tick [update reset], taken with heading Right, the two requests Up and
    Left are both accepted, and the next tick is taken with heading Left,
    the reverse of Right. *)
Lemma two_heading_requests_reverse :
  state (update reset) = Playing
  ∧ direction (player (update reset)) = RIGHT
  ∧ direction (player reversed_game)
    = opposite (direction (player (update reset)))
  ∧ pos (player (update reversed_game)) = pos (player (update reset))
  ∧ state (update reversed_game) = Lose.
Proof. vm_compute. repeat split; reflexivity. Qed.

(** C7, as amended.  A request for the reverse of the current heading
    changes nothing.  When the heading is one of the four directions, as it
    is in every state a game can reach, one call of [handle_input],
    whatever keys are down, never yields the reverse of the heading it
    found; [update] leaves the player's heading alone; so when one call is
    made between two ticks, as in the main loop, the heading at a tick is
    never the reverse of the heading at the tick before. *)
Theorem no_reverse_with_one_request_per_tick (s : TronGame) :
  (∀ r, r ∈ DIRS → r = opposite (direction (player s)) →
        set_player_heading r s = s)
  ∧ direction (player (update s)) = direction (player s)
  ∧ (game_reachable s → direction (player s) ∈ DIRS)
  ∧ (direction (player s) ∈ DIRS →
     (∀ keys,
        direction (player (handle_input keys s))
        ≠ opposite (direction (player s)))
     ∧ (∀ keys,
          direction (player (handle_input keys (update s)))
          ≠ opposite (direction (player s)))
     ∧ (∀ keys,
          direction (player (run_step keys (update s)))
          ≠ opposite (direction (player s)))).
Proof.
  split; [|split; [|split]].
  - intros r Hin Hopp.
    assert (Hdir : direction (player s) = opposite r)
      by (by rewrite Hopp, opposite_involutive).
    unfold set_player_heading, handle_input. rewrite Hdir.
    apply elem_of_DIRS in Hin as [-> | [-> | [-> | ->]]]; reflexivity.
  - apply update_player_direction.
  - intros Hr. by destruct (game_reachable_inv s Hr) as (_ & _ & Hd).
  - intros Hd.
    assert (Hone : ∀ keys,
      direction (player (handle_input keys (update s)))
      ≠ opposite (direction (player s))).
    { intros keys. rewrite <- (update_player_direction s).
      apply handle_input_no_reverse. by rewrite update_player_direction. }
    split; [|split].
    + intros keys. by apply handle_input_no_reverse.
    + exact Hone.
    + intros keys. unfold run_step. rewrite update_player_direction.
      apply Hone.
Qed.

Lemma no_reverse_with_one_request_per_tick_witness :
  set_player_heading LEFT reset = reset
  ∧ direction (player (handle_input (keys_for UP) (update reset)))
    ≠ opposite (direction (player reset)).
Proof.
  pose proof (no_reverse_with_one_request_per_tick reset)
    as (H1 & _ & H3 & H4).
  split.
  - apply H1; [apply elem_of_DIRS; auto|reflexivity].
  - destruct (H4 (H3 reach_reset)) as (_ & H5 & _). exact (H5 (keys_for UP)).
Defined.

(* ------------------------------------------------------------------ *)
(** ** The retry towards the player's own cell *)

(** The retry of [decide] finds nothing but, at best, the pursuer's own
    cell. *)
Lemma retry_search_result enemy player :
  cycle_ok player →
  astar (pos enemy) (pos player) (Agent._blocked enemy player) = None
  ∨ astar (pos enemy) (pos player) (Agent._blocked enemy player)
    = Some [pos enemy].
Proof.
  intros Hpos.
  destruct (decide (pos enemy = pos player)) as [Heq|Hne].
  - right. rewrite <- Heq. apply astar_same_start.
  - left. apply astar_blocked_goal; [done|].
    unfold Agent._blocked. apply elem_of_union. by right.
Qed.

Lemma replan_after_failed_search ag enemy player t :
  cycle_ok player →
  astar (pos enemy) (Agent._predict_player player 5)
        (Agent._blocked enemy player) = None →
  t `mod` REPLAN_INTERVAL = 0 ∨ plan ag = [] →
  Agent.replan ag enemy player t (Agent._blocked enemy player) = [].
Proof.
  intros Hpos Hfirst Hcond. unfold Agent.replan.
  assert ((t `mod` REPLAN_INTERVAL =? 0) || bool_decide (plan ag = [])
          = true) as ->.
  { apply orb_true_iff. destruct Hcond as [H|H]; [left|right].
    - by apply Z.eqb_eq.
    - by apply bool_decide_eq_true. }
  rewrite Hfirst.
  destruct (retry_search_result enemy player Hpos) as [-> | ->]; reflexivity.
Qed.

(** C10. A blocked goal.  For [start ≠ goal] with [goal ∈ blocked] the
    search returns [None].  The player's own cell is a cell of the player's
    trail, so a blocked one: the retry of [decide] towards it returns
    [None], or the one-cell path when the pursuer stands on that very
    cell; hence, when the search towards the predicted cell fails, the
    re-plan leaves the agent with an empty plan, in every state a game can
    reach. *)
Theorem blocked_goal_gives_no_plan :
  (∀ start goal blocked,
     start ≠ goal → goal ∈ blocked → astar start goal blocked = None)
  ∧ (∀ enemy player,
       pos player ∈ trail player →
       astar (pos enemy) (pos player) (Agent._blocked enemy player) = None
       ∨ astar (pos enemy) (pos player) (Agent._blocked enemy player)
         = Some [pos enemy])
  ∧ (∀ ag enemy player t,
       pos player ∈ trail player →
       astar (pos enemy) (Agent._predict_player player 5)
             (Agent._blocked enemy player) = None →
       t `mod` REPLAN_INTERVAL = 0 ∨ plan ag = [] →
       Agent.replan ag enemy player t (Agent._blocked enemy player) = [])
  ∧ (∀ s t,
       game_reachable s →
       astar (pos (enemy s)) (Agent._predict_player (player s) 5)
             (Agent._blocked (enemy s) (player s)) = None →
       t `mod` REPLAN_INTERVAL = 0 ∨ plan (agent s) = [] →
       Agent.replan (agent s) (enemy s) (player s) t
         (Agent._blocked (enemy s) (player s)) = []).
Proof.
  split; [apply astar_blocked_goal|].
  split; [apply retry_search_result|].
  split; [apply replan_after_failed_search|].
  intros s t Hr. apply replan_after_failed_search.
  by destruct (game_reachable_inv s Hr) as (Hp & _).
Qed.

Lemma blocked_goal_gives_no_plan_witness :
  astar (0, 0) (1, 0) {[ (1, 0) ]} = None
  ∧ Agent.replan new_agent cornered_enemy cornering_player 1
      (Agent._blocked cornered_enemy cornering_player) = [].
Proof.
  destruct blocked_goal_gives_no_plan as (H1 & _ & H3 & _). split.
  - apply H1; [discriminate|]. by apply elem_of_singleton.
  - apply H3.
    + vm_compute. reflexivity.
    + vm_compute. reflexivity.
    + right. reflexivity.
Defined.

(* ================================================================== *)
(** * Further properties *)

(* ------------------------------------------------------------------ *)
(** ** Search: admissibility, failure and path shape *)

Lemma heuristic_step (a c n : cell) :
  adjacent c n → heuristic a n ≤ heuristic a c + 1.
Proof.
  intros (d & Hd & ->). apply elem_of_DIRS in Hd.
  unfold heuristic, shift, UP, DOWN, LEFT, RIGHT in *.
  destruct a as [ax ay], c as [cx cy].
  destruct Hd as [-> | [-> | [-> | ->]]]; simpl; lia.
Qed.

Lemma heuristic_path_to blocked a b p :
  path_to blocked a b p → heuristic a b ≤ Z.of_nat (length p) - 1.
Proof.
  induction 1 as [|c p n Hp IH Ha Hf].
  - unfold heuristic. simpl. lia.
  - rewrite length_app. simpl length.
    pose proof (heuristic_step a c n Ha). lia.
Qed.

(** X1. The Manhattan heuristic is symmetric, is zero exactly between a
    cell and itself, never exceeds the number of steps of a grid path
    between the two cells, and so never exceeds the number of steps of the
    path [astar] returns: it is admissible, as the source comment says. *)
Theorem heuristic_admissible (a b : cell) :
  heuristic a b = heuristic b a
  ∧ (heuristic a b = 0 ↔ a = b)
  ∧ (∀ blocked p, grid_path blocked a b p →
       heuristic a b ≤ Z.of_nat (length p) - 1)
  ∧ (∀ blocked p, astar a b blocked = Some p →
       heuristic a b + 1 ≤ Z.of_nat (length p)).
Proof.
  split; [|split; [|split]].
  - unfold heuristic. lia.
  - destruct a as [ax ay], b as [bx by_]. unfold heuristic; simpl. split.
    + intros H. f_equal; lia.
    + intros [= -> ->]. lia.
  - intros blocked p Hp. apply path_to_grid_path in Hp.
    by apply (heuristic_path_to blocked).
  - intros blocked p Hp. apply astar_shortest in Hp as [Hp _].
    apply heuristic_path_to in Hp. lia.
Qed.

(** X2. [astar] returns [None] exactly when no grid path leads from
    [start] to [goal] around the obstacles. *)
Theorem astar_none_iff_unreachable start goal blocked :
  astar start goal blocked = None
  ↔ ¬ ∃ p, grid_path blocked start goal p.
Proof.
  split.
  - intros Hn [p Hp]. apply path_to_grid_path in Hp.
    destruct (astar_complete _ _ _ _ Hp) as [q Hq]. congruence.
  - intros Hno. destruct (astar start goal blocked) as [p|] eqn:Hp; [|done].
    exfalso. apply Hno. exists p. apply path_to_grid_path.
    by apply astar_shortest.
Qed.

(** A path that reaches [n] on the way has a prefix that ends there. *)
Lemma path_to_prefix blocked start c p n :
  path_to blocked start c p → n ∈ p →
  ∃ q, path_to blocked start n q ∧ (length q ≤ length p)%nat.
Proof.
  induction 1 as [|c p m Hp IH Ha Hf]; intros Hn.
  - apply list_elem_of_singleton in Hn as ->. exists [start].
    split; [constructor|done].
  - apply elem_of_app in Hn as [Hn|Hn].
    + destruct (IH Hn) as (q & Hq & Hlen). exists q. split; [done|].
      rewrite length_app. lia.
    + apply list_elem_of_singleton in Hn as ->. exists (p ++ [m]).
      split; [by apply path_step with c|done].
Qed.

(** A path that visits a cell twice can be cut short. *)
Lemma path_to_shortcut blocked start c p :
  path_to blocked start c p → ¬ NoDup p →
  ∃ q, path_to blocked start c q ∧ (length q < length p)%nat.
Proof.
  induction 1 as [|c p n Hp IH Ha Hf]; intros Hdup.
  - exfalso. apply Hdup. apply NoDup_singleton.
  - destruct (decide (n ∈ p)) as [Hin|Hnin].
    + destruct (path_to_prefix _ _ _ _ _ Hp Hin) as (q & Hq & Hlen).
      exists q. split; [done|]. rewrite length_app. simpl. lia.
    + destruct (decide (NoDup p)) as [Hnd|Hnd].
      * exfalso. apply Hdup. apply NoDup_app. split; [done|].
        split; [|apply NoDup_singleton].
        intros x Hx Hx'. apply list_elem_of_singleton in Hx' as ->. done.
      * destruct (IH Hnd) as (q & Hq & Hlen).
        exists (q ++ [n]). split; [by apply path_step with c|].
        rewrite !length_app. simpl. lia.
Qed.

(** X3. A path returned by [astar] visits no cell twice. *)
Theorem astar_path_simple start goal blocked p :
  astar start goal blocked = Some p → NoDup p.
Proof.
  intros Hp. apply astar_shortest in Hp as [Hpath Hmin].
  destruct (decide (NoDup p)) as [|Hdup]; [done|].
  destruct (path_to_shortcut _ _ _ _ Hpath Hdup) as (q & Hq & Hlen).
  specialize (Hmin q Hq). lia.
Qed.

Lemma astar_path_simple_witness : NoDup [(0, 0); (1, 0)].
Proof.
  apply (astar_path_simple (0, 0) (1, 0) ∅).
  apply astar_one_step.
  - exists RIGHT. split; [|reflexivity]. apply elem_of_DIRS. auto.
  - split; [reflexivity|]. apply not_elem_of_empty.
Defined.

(** A path of Manhattan length exists when the rectangle between the two
    cells holds no obstacle (the first cell apart). *)
Lemma manhattan_path blocked a (n : nat) :
  inside a = true →
  ∀ b, heuristic a b = Z.of_nat n → inside b = true →
       (∀ c, c ∈ blocked → in_box a b c → c = a) →
       ∃ p, path_to blocked a b p ∧ length p = S n.
Proof.
  intros Ha. induction n as [|n IH]; intros b Hh Hb Hclear.
  - assert (a = b) as <-.
    { destruct a as [ax ay], b as [bx by_]. unfold heuristic in Hh.
      simpl in Hh. f_equal; lia. }
    exists [a]. split; [constructor|done].
  - apply inside_spec in Ha as Ha'. apply inside_spec in Hb as Hb'.
    destruct a as [ax ay], b as [bx by_]. unfold heuristic in Hh.
    simpl in Hh, Ha', Hb'.
    assert (Hcase : (ax < bx ∨ bx < ax) ∨ (ax = bx ∧ (ay < by_ ∨ by_ < ay)))
      by lia.
    assert (Hfree : free blocked (bx, by_)).
    { split; [done|]. intros Hin.
      assert ((bx, by_) = (ax, ay)) as Heq.
      { apply Hclear; [done|]. unfold in_box; simpl. lia. }
      injection Heq as -> ->. lia. }
    assert (Hstep : ∀ b' d, d ∈ DIRS → (bx, by_) = shift b' d →
              heuristic (ax, ay) b' = Z.of_nat n → inside b' = true →
              (∀ c, in_box (ax, ay) b' c → in_box (ax, ay) (bx, by_) c) →
              ∃ p, path_to blocked (ax, ay) (bx, by_) p ∧ length p = S (S n)).
    { intros b' d Hd Hshift Hh' Hb'' Hbox.
      destruct (IH b' Hh' Hb'') as (p & Hp & Hlen).
      { intros c Hc Hin. apply Hclear; [done|]. by apply Hbox. }
      exists (p ++ [(bx, by_)]). split.
      - apply path_step with b'; [done| |done]. by exists d.
      - rewrite length_app, Hlen. simpl. lia. }
    destruct Hcase as [[Hx|Hx]|[-> [Hy|Hy]]].
    + apply (Hstep (bx - 1, by_) RIGHT).
      * apply elem_of_DIRS; auto.
      * unfold shift, RIGHT; simpl. f_equal; lia.
      * unfold heuristic; simpl. lia.
      * apply inside_spec; simpl. lia.
      * intros c. unfold in_box; simpl. lia.
    + apply (Hstep (bx + 1, by_) LEFT).
      * apply elem_of_DIRS; auto.
      * unfold shift, LEFT; simpl. f_equal; lia.
      * unfold heuristic; simpl. lia.
      * apply inside_spec; simpl. lia.
      * intros c. unfold in_box; simpl. lia.
    + apply (Hstep (bx, by_ - 1) DOWN).
      * apply elem_of_DIRS; auto.
      * unfold shift, DOWN; simpl. f_equal; lia.
      * unfold heuristic; simpl. lia.
      * apply inside_spec; simpl. lia.
      * intros c. unfold in_box; simpl. lia.
    + apply (Hstep (bx, by_ + 1) UP).
      * apply elem_of_DIRS; auto.
      * unfold shift, UP; simpl. f_equal; lia.
      * unfold heuristic; simpl. lia.
      * apply inside_spec; simpl. lia.
      * intros c. unfold in_box; simpl. lia.
Qed.

(** X4. When both cells are on the grid and the rectangle they span
    holds no obstacle (the start cell apart, which may be one), [astar]
    finds a path of Manhattan length: [heuristic a b + 1] cells. *)
Theorem astar_manhattan_when_clear a b blocked :
  inside a = true → inside b = true →
  (∀ c, c ∈ blocked → in_box a b c → c = a) →
  ∃ p, astar a b blocked = Some p
       ∧ Z.of_nat (length p) = heuristic a b + 1.
Proof.
  intros Ha Hb Hclear.
  assert (Hnn : 0 ≤ heuristic a b) by (unfold heuristic; lia).
  destruct (manhattan_path blocked a (Z.to_nat (heuristic a b)) Ha b)
    as (q & Hq & Hlen); [lia|done|done|].
  destruct (astar_complete _ _ _ _ Hq) as [p Hp].
  exists p. split; [done|].
  destruct (astar_shortest _ _ _ _ Hp) as [Hpath Hmin].
  specialize (Hmin q Hq). apply heuristic_path_to in Hpath. lia.
Qed.

Lemma astar_manhattan_when_clear_witness :
  ∃ p, astar (2, 3) (6, 1) {[ (10, 10) ]} = Some p
       ∧ Z.of_nat (length p) = heuristic (2, 3) (6, 1) + 1.
Proof.
  apply (astar_manhattan_when_clear (2, 3) (6, 1) {[ (10, 10) ]}).
  - reflexivity.
  - reflexivity.
  - intros c Hc [H _]. apply elem_of_singleton in Hc as ->.
    simpl in H. lia.
Defined.

(* ------------------------------------------------------------------ *)
(** ** Flood fill: bounds and monotonicity *)

Lemma grid_size_Z : Z.of_nat (size grid) ≤ COLS * ROWS.
Proof.
  pose proof size_grid as H.
  assert (0 ≤ COLS * ROWS) by (unfold COLS, ROWS; lia).
  revert H. generalize (size grid). intros n H. lia.
Qed.

Lemma path_to_free blocked a c p :
  path_to blocked a c p → c = a ∨ free blocked c.
Proof. destruct 1; [by left|by right]. Qed.

Lemma reachable_mono (blocked blocked' : gset cell) (start c : cell) :
  blocked ⊆ blocked' →
  reachable blocked' start c → reachable blocked start c.
Proof.
  intros Hsub [p Hp]. induction Hp as [|c p n Hp [q Hq] Ha [Hi Hb]].
  - exists [start]. constructor.
  - exists (q ++ [n]). apply path_step with c; [done|done|].
    split; [done|]. intros Hn. apply Hb. by apply Hsub.
Qed.

Lemma reachable_start_blocked blocked start c :
  reachable blocked start c → reachable (blocked ∪ {[start]}) start c.
Proof.
  intros [p Hp]. induction Hp as [|c p n Hp [q Hq] Ha [Hi Hb]].
  - exists [start]. constructor.
  - destruct (decide (n = start)) as [->|Hne].
    + exists [start]. constructor.
    + exists (q ++ [n]). apply path_step with c; [done|done|].
      split; [done|].
      intros [Hn|Hn]%elem_of_union; [done|].
      by apply elem_of_singleton in Hn.
Qed.

Lemma adjacent_sym (a b : cell) : adjacent a b → adjacent b a.
Proof.
  intros (d & Hd & ->). exists (opposite d). split.
  - apply elem_of_DIRS in Hd. apply elem_of_DIRS.
    destruct Hd as [-> | [-> | [-> | ->]]]; unfold opposite; simpl; auto.
  - destruct a as [x y], d as [dx dy]. unfold shift, opposite; simpl.
    f_equal; lia.
Qed.

Lemma reachable_trans blocked a b c :
  reachable blocked a b → reachable blocked b c → reachable blocked a c.
Proof.
  intros Hab [p Hp]. induction Hp as [|c p n Hp [q Hq] Ha Hf]; [done|].
  exists (q ++ [n]). by apply path_step with c.
Qed.

Lemma reachable_sym blocked a b :
  free blocked a → reachable blocked a b → reachable blocked b a.
Proof.
  intros Hfa [p Hp]. induction Hp as [|c p n Hp IH Ha Hf].
  - exists [a]. constructor.
  - apply reachable_trans with c; [|done].
    exists ([n] ++ [c]). apply path_step with n; [constructor| |].
    + by apply adjacent_sym.
    + destruct (path_to_free _ _ _ _ Hp) as [->|Hc]; done.
Qed.

(** X5. [flood_fill_count] is at least 1 (the start is always counted),
    at most one more than the number of grid cells that are no obstacle,
    hence at most [COLS * ROWS + 1], and at most [COLS * ROWS] when the start
    is on the grid. *)
Theorem flood_fill_count_bounds start blocked :
  1 ≤ flood_fill_count start blocked
  ∧ flood_fill_count start blocked ≤ 1 + Z.of_nat (size (grid ∖ blocked))
  ∧ flood_fill_count start blocked ≤ COLS * ROWS + 1
  ∧ (inside start = true → flood_fill_count start blocked ≤ COLS * ROWS).
Proof.
  destruct (flood_run_total pop_last start blocked pop_last_ok)
    as (R & _ & HR & Hc).
  fold (flood_fill_count start blocked) in Hc. rewrite Hc.
  pose proof (flood_fill_count_pos start blocked) as Hpos. rewrite Hc in Hpos.
  assert (Hsub : R ⊆ (grid ∖ blocked) ∪ {[start]}).
  { intros c Hin. apply HR in Hin as [p Hp].
    destruct (path_to_free _ _ _ _ Hp) as [->|[Hi Hb]].
    - apply elem_of_union; right. by apply elem_of_singleton.
    - apply elem_of_union; left. apply elem_of_difference.
      split; [by apply inside_grid|done]. }
  apply subseteq_size in Hsub.
  pose proof (size_add_le (grid ∖ blocked) start) as Hadd.
  assert (Hdiff : (size (grid ∖ blocked) ≤ size grid)%nat).
  { apply subseteq_size. intros c Hin.
    by apply elem_of_difference in Hin as [? _]. }
  pose proof grid_size_Z as Hg.
  split; [exact Hpos|]. split; [lia|]. split; [lia|].
  intros Hstart.
  assert (Hsub' : R ⊆ grid).
  { intros c Hin. apply HR in Hin as [p Hp].
    destruct (path_to_free _ _ _ _ Hp) as [->|[Hi Hb]];
      by apply inside_grid. }
  apply subseteq_size in Hsub'. lia.
Qed.

(** X6. More obstacles never give more space: with a larger obstacle
    set the count from the same start is at most what it was. *)
Theorem flood_fill_count_antitone (start : cell)
    (blocked blocked' : gset cell) :
  blocked ⊆ blocked' →
  flood_fill_count start blocked' ≤ flood_fill_count start blocked.
Proof.
  intros Hsub.
  destruct (flood_run_total pop_last start blocked pop_last_ok)
    as (R & _ & HR & Hc).
  destruct (flood_run_total pop_last start blocked' pop_last_ok)
    as (R' & _ & HR' & Hc').
  unfold flood_fill_count. rewrite Hc, Hc'.
  assert (HRR : R' ⊆ R).
  { intros c Hin. apply HR. apply (reachable_mono blocked blocked'); [done|].
    by apply HR'. }
  apply subseteq_size in HRR. lia.
Qed.

Lemma flood_fill_count_antitone_witness :
  flood_fill_count (3, 3) ({[ (4, 3) ]} ∪ {[ (3, 4) ]})
  ≤ flood_fill_count (3, 3) {[ (4, 3) ]}.
Proof.
  apply (flood_fill_count_antitone (3, 3) {[ (4, 3) ]}
           ({[ (4, 3) ]} ∪ {[ (3, 4) ]})).
  apply union_subseteq_l.
Defined.

(** X7. Making the start cell an obstacle does not change the count,
    so the space [_survival_direction] measures with [blocked | {(nx, ny)}]
    is the plain flood fill from the next cell. *)
Theorem flood_fill_count_start_blocked start blocked :
  flood_fill_count start (blocked ∪ {[start]})
  = flood_fill_count start blocked
  ∧ ∀ enemy d,
      survival_space enemy blocked d
      = flood_fill_count (shift (pos enemy) d) blocked.
Proof.
  assert (H : ∀ s b, flood_fill_count s (b ∪ {[s]}) = flood_fill_count s b).
  { intros s b.
    destruct (flood_run_total pop_last s b pop_last_ok)
      as (R & _ & HR & Hc).
    unfold flood_fill_count. rewrite Hc.
    apply flood_fill_with_exact; [apply pop_last_ok|].
    intros c. rewrite HR. split.
    - apply reachable_start_blocked.
    - apply reachable_mono. apply union_subseteq_l. }
  split; [apply H|]. intros enemy d. unfold survival_space. apply H.
Qed.

(** X8. Two cells of one open region have the same count: when [a] is
    free and [b] can be reached from [a], the fill from [b] counts as many
    cells as the fill from [a]. *)
Theorem flood_fill_count_same_region blocked a b :
  free blocked a → reachable blocked a b →
  flood_fill_count b blocked = flood_fill_count a blocked.
Proof.
  intros Hfa Hab.
  destruct (flood_run_total pop_last a blocked pop_last_ok)
    as (R & _ & HR & Hc).
  unfold flood_fill_count. rewrite Hc.
  apply flood_fill_with_exact; [apply pop_last_ok|].
  intros c. rewrite HR. split.
  - intros Hac. apply reachable_trans with a; [|done].
    by apply reachable_sym.
  - intros Hbc. by apply reachable_trans with b.
Qed.

Lemma flood_fill_count_same_region_witness :
  flood_fill_count (4, 3) {[ (9, 9) ]} = flood_fill_count (3, 3) {[ (9, 9) ]}.
Proof.
  apply (flood_fill_count_same_region {[ (9, 9) ]} (3, 3) (4, 3)).
  - split; [reflexivity|]. intros H. apply elem_of_singleton in H.
    discriminate H.
  - exists ([(3, 3)] ++ [(4, 3)]).
    apply path_step with (3, 3); [constructor| |].
    + exists RIGHT. split; [|reflexivity]. apply elem_of_DIRS. auto.
    + split; [reflexivity|]. intros H. apply elem_of_singleton in H.
      discriminate H.
Defined.

(* ------------------------------------------------------------------ *)
(** ** The predicted position *)

Lemma predict_step_cases d p :
  (inside (shift p d) = true ∧ Agent.predict_step d p = shift p d)
  ∨ (inside (shift p d) = false ∧ Agent.predict_step d p = p).
Proof.
  unfold Agent.predict_step.
  change ((0 <=? p.1 + d.1) && (p.1 + d.1 <? COLS)
          && (0 <=? p.2 + d.2) && (p.2 + d.2 <? ROWS))
    with (inside (shift p d)).
  destruct (inside (shift p d)); [left|right]; done.
Qed.

Lemma predict_iter d p n :
  ∃ k, (k ≤ n)%nat
       ∧ Nat.iter n (Agent.predict_step d) p
         = (p.1 + Z.of_nat k * d.1, p.2 + Z.of_nat k * d.2)
       ∧ (inside p = true →
          inside (Nat.iter n (Agent.predict_step d) p) = true).
Proof.
  induction n as [|n (k & Hk & Heq & Hin)].
  - exists 0%nat. split; [done|]. split; [|done].
    destruct p as [x y]. simpl. f_equal; lia.
  - rewrite Nat.iter_succ.
    destruct (predict_step_cases d (Nat.iter n (Agent.predict_step d) p))
      as [[Hi ->]|[Hi ->]].
    + exists (S k). split; [lia|]. split; [|done].
      rewrite Heq. unfold shift; simpl. f_equal; lia.
    + exists k. split; [lia|]. split; done.
Qed.

Lemma predict_iter_stuck d p n :
  inside (shift p d) = false → Nat.iter n (Agent.predict_step d) p = p.
Proof.
  intros Hout. induction n as [|n IH]; [done|].
  rewrite Nat.iter_succ. rewrite IH.
  destruct (predict_step_cases d p) as [[Hi _]|[_ ->]]; [congruence|done].
Qed.

Lemma inside_convex (p d : cell) (n j : nat) :
  (j ≤ n)%nat → inside p = true →
  inside (p.1 + Z.of_nat n * d.1, p.2 + Z.of_nat n * d.2) = true →
  inside (p.1 + Z.of_nat j * d.1, p.2 + Z.of_nat j * d.2) = true.
Proof.
  intros Hj Hp Hn. apply inside_spec in Hp, Hn. apply inside_spec.
  simpl in *.
  assert (Hmono : ∀ z : Z,
    0 ≤ Z.of_nat j * z ≤ Z.of_nat n * z ∨ Z.of_nat n * z ≤ Z.of_nat j * z ≤ 0).
  { intros z. destruct (Z.le_gt_cases 0 z); [left|right]; nia. }
  pose proof (Hmono d.1). pose proof (Hmono d.2). lia.
Qed.

Lemma predict_iter_along d p n :
  (∀ j, (1 ≤ j ≤ n)%nat →
        inside (p.1 + Z.of_nat j * d.1, p.2 + Z.of_nat j * d.2) = true) →
  Nat.iter n (Agent.predict_step d) p
  = (p.1 + Z.of_nat n * d.1, p.2 + Z.of_nat n * d.2).
Proof.
  induction n as [|n IH]; intros Hall.
  - destruct p as [x y]. simpl. f_equal; lia.
  - rewrite Nat.iter_succ. rewrite IH by (intros j Hj; apply Hall; lia).
    assert (Hs : shift (p.1 + Z.of_nat n * d.1, p.2 + Z.of_nat n * d.2) d
                 = (p.1 + Z.of_nat (S n) * d.1, p.2 + Z.of_nat (S n) * d.2)).
    { unfold shift; simpl. f_equal; lia. }
    destruct (predict_step_cases d
                (p.1 + Z.of_nat n * d.1, p.2 + Z.of_nat n * d.2))
      as [[Hi ->]|[Hi _]]; [done|].
    rewrite Hs, Hall in Hi by lia. done.
Qed.

(** X9. [_predict_player] returns the player's position advanced by
    some [k ≤ steps] steps along its heading; the result is on the grid
    when the player is; it is the position advanced by all [steps] steps
    when each of the cells one to [steps] steps ahead is on the grid, and
    so when the player is on the grid and the cell [steps] steps ahead is;
    and it is the player's position itself when the first step already
    leaves the grid. *)
Theorem predict_player_clamped (player : Cycle) (steps : nat) :
  (∃ k, (k ≤ steps)%nat
        ∧ Agent._predict_player player steps
          = ((pos player).1 + Z.of_nat k * (direction player).1,
             (pos player).2 + Z.of_nat k * (direction player).2))
  ∧ (inside (pos player) = true →
     inside (Agent._predict_player player steps) = true)
  ∧ ((∀ j, (1 ≤ j ≤ steps)%nat →
           inside ((pos player).1 + Z.of_nat j * (direction player).1,
                   (pos player).2 + Z.of_nat j * (direction player).2)
           = true) →
     Agent._predict_player player steps
     = ((pos player).1 + Z.of_nat steps * (direction player).1,
        (pos player).2 + Z.of_nat steps * (direction player).2))
  ∧ (inside (pos player) = true →
     inside ((pos player).1 + Z.of_nat steps * (direction player).1,
             (pos player).2 + Z.of_nat steps * (direction player).2) = true →
     Agent._predict_player player steps
     = ((pos player).1 + Z.of_nat steps * (direction player).1,
        (pos player).2 + Z.of_nat steps * (direction player).2))
  ∧ (inside (shift (pos player) (direction player)) = false →
     Agent._predict_player player steps = pos player).
Proof.
  unfold Agent._predict_player.
  destruct (predict_iter (direction player) (pos player) steps)
    as (k & Hk & Heq & Hin).
  split; [by exists k|]. split; [done|]. split; [|split].
  - apply predict_iter_along.
  - intros Hp Hn. apply predict_iter_along.
    intros j Hj. apply (inside_convex _ _ steps); [lia|done|done].
  - apply predict_iter_stuck.
Qed.

(* ------------------------------------------------------------------ *)
(** ** The fallback and the decision *)

Lemma survival_direction_in_candidates enemy blocked :
  survival_candidates enemy blocked ≠ [] →
  Agent._survival_direction enemy blocked ∈ survival_candidates enemy blocked.
Proof.
  intros Hne.
  destruct (survival_direction_cases enemy blocked)
    as [[Hnil _]|(i & Hi & _)]; [done|].
  apply list_elem_of_lookup. by exists i.
Qed.

Lemma survival_direction_default enemy blocked :
  survival_candidates enemy blocked = [] →
  Agent._survival_direction enemy blocked = direction enemy.
Proof.
  intros Hnil.
  destruct (survival_direction_cases enemy blocked)
    as [[_ Hr]|(i & Hi & _)]; [done|].
  rewrite Hnil in Hi. done.
Qed.

Lemma survival_candidate_spec enemy blocked d :
  d ∈ survival_candidates enemy blocked ↔
  d ∈ DIRS ∧ d ≠ opposite (direction enemy)
  ∧ free blocked (shift (pos enemy) d).
Proof.
  unfold survival_candidates. rewrite list_elem_of_filter.
  unfold survival_ok, free. tauto.
Qed.

Lemma direction_ne_opposite (d : cell) : d ∈ DIRS → d ≠ opposite d.
Proof.
  intros Hd. apply elem_of_DIRS in Hd as [-> | [-> | [-> | ->]]]; discriminate.
Qed.

(** X10. For a pursuer heading in one of the four directions,
    [_survival_direction] returns one of the four directions, never the
    reverse of the heading, and the cell it leads to is on the grid and no
    obstacle exactly when some direction other than the reverse leads to
    such a cell. *)
Theorem survival_direction_boxed_in enemy blocked :
  direction enemy ∈ DIRS →
  Agent._survival_direction enemy blocked ∈ DIRS
  ∧ Agent._survival_direction enemy blocked ≠ opposite (direction enemy)
  ∧ (free blocked
       (shift (pos enemy) (Agent._survival_direction enemy blocked))
     ↔ survival_candidates enemy blocked ≠ []).
Proof.
  intros Hd.
  destruct (decide (survival_candidates enemy blocked = [])) as [Hnil|Hne].
  - rewrite (survival_direction_default enemy blocked Hnil).
    split; [done|]. split; [by apply direction_ne_opposite|].
    split; [|done]. intros Hfree Hnil'.
    assert (Hin : direction enemy ∈ survival_candidates enemy blocked).
    { apply survival_candidate_spec. split; [done|].
      split; [by apply direction_ne_opposite|done]. }
    rewrite Hnil in Hin. by apply elem_of_nil in Hin.
  - pose proof (survival_direction_in_candidates enemy blocked Hne) as Hin.
    apply survival_candidate_spec in Hin as (H1 & H2 & H3).
    split; [done|]. split; [done|]. split; done.
Qed.

Lemma survival_direction_boxed_in_witness :
  Agent._survival_direction cornered_enemy
    (Agent._blocked cornered_enemy cornering_player) ∈ DIRS
  ∧ Agent._survival_direction cornered_enemy
      (Agent._blocked cornered_enemy cornering_player)
    ≠ opposite (direction cornered_enemy).
Proof.
  destruct (survival_direction_boxed_in cornered_enemy
              (Agent._blocked cornered_enemy cornering_player))
    as (H1 & H2 & _).
  - apply elem_of_DIRS. right; right; left. reflexivity.
  - split; [exact H1|exact H2].
Defined.

Lemma decide_ticks ag enemy player :
  ticks (Agent.decide ag enemy player).2 = ticks ag + 1.
Proof.
  unfold Agent.decide.
  destruct (Agent.replan ag enemy player (ticks ag + 1)
              (Agent._blocked enemy player)) as [|nxt rest]; [done|].
  cbv zeta.
  destruct (bool_decide _ && in_bounds enemy _); done.
Qed.

Lemma decide_cases ag enemy player :
  free (Agent._blocked enemy player)
       (shift (pos enemy) (Agent.decide ag enemy player).1)
  ∨ (Agent.decide ag enemy player).1
    = Agent._survival_direction enemy (Agent._blocked enemy player).
Proof.
  unfold Agent.decide.
  destruct (Agent.replan ag enemy player (ticks ag + 1)
              (Agent._blocked enemy player)) as [|nxt rest]; [by right|].
  cbv zeta. rewrite in_bounds_Some, next_pos_Some.
  set (chosen := (nxt.1 - (pos enemy).1, nxt.2 - (pos enemy).2)).
  destruct (bool_decide (shift (pos enemy) chosen ∉ Agent._blocked enemy player)
            && inside (shift (pos enemy) chosen)) eqn:E; [|by right].
  left. apply andb_true_iff in E as [E1 E2].
  apply bool_decide_eq_true in E1. cbn [fst]. by split.
Qed.

Lemma decide_target ag enemy player :
  free (Agent._blocked enemy player)
       (shift (pos enemy) (Agent.decide ag enemy player).1)
  ∨ (survival_candidates enemy (Agent._blocked enemy player) = []
     ∧ (Agent.decide ag enemy player).1 = direction enemy).
Proof.
  destruct (decide_cases ag enemy player) as [Hfree|Hsurv]; [by left|].
  destruct (decide (survival_candidates enemy (Agent._blocked enemy player)
                    = [])) as [Hnil|Hne].
  - right. split; [done|]. rewrite Hsurv.
    by apply survival_direction_default.
  - left. rewrite Hsurv.
    pose proof (survival_direction_in_candidates _ _ Hne) as Hin.
    by apply survival_candidate_spec in Hin as (_ & _ & H3).
Qed.

(** X11. Every call of [decide] advances the agent's tick counter by
    one, and the heading it returns satisfies one of two things: its next
    cell is on the grid and on no trail; or no direction other than the
    reverse of the pursuer's heading leads to such a cell and the heading
    returned is the pursuer's current one.  So a heading [decide] returns
    leads off the grid or onto a trail only when the pursuer is boxed in
    and keeps its heading. *)
Theorem decide_steers_clear ag enemy player :
  ticks (Agent.decide ag enemy player).2 = ticks ag + 1
  ∧ (free (Agent._blocked enemy player)
          (shift (pos enemy) (Agent.decide ag enemy player).1)
     ∨ (survival_candidates enemy (Agent._blocked enemy player) = []
        ∧ (Agent.decide ag enemy player).1 = direction enemy))
  ∧ (¬ free (Agent._blocked enemy player)
            (shift (pos enemy) (Agent.decide ag enemy player).1) →
     survival_candidates enemy (Agent._blocked enemy player) = []
     ∧ (Agent.decide ag enemy player).1 = direction enemy).
Proof.
  split; [apply decide_ticks|]. split; [apply decide_target|].
  intros Hnf. by destruct (decide_target ag enemy player) as [Hf|Hb].
Qed.

(** X12. On a tick that replans, when the search to the predicted
    position returns a path of two cells or more, [decide] heads for the
    second cell of that path, which is a free neighbour of the pursuer, in
    one of the four directions, and keeps the rest of the path as its
    plan. *)
Theorem decide_takes_first_step ag enemy player p :
  (ticks ag + 1) `mod` REPLAN_INTERVAL = 0 ∨ plan ag = [] →
  astar (pos enemy) (Agent._predict_player player 5)
        (Agent._blocked enemy player) = Some p →
  (2 ≤ length p)%nat →
  ∃ nxt rest,
    p = pos enemy :: nxt :: rest
    ∧ adjacent (pos enemy) nxt
    ∧ free (Agent._blocked enemy player) nxt
    ∧ Agent.decide ag enemy player
      = ((nxt.1 - (pos enemy).1, nxt.2 - (pos enemy).2),
         {| plan := rest; ticks := ticks ag + 1 |})
    ∧ shift (pos enemy) (Agent.decide ag enemy player).1 = nxt
    ∧ (Agent.decide ag enemy player).1 ∈ DIRS.
Proof.
  intros Hcond Hastar Hlen.
  destruct (astar_shortest _ _ _ _ Hastar) as [Hpath _].
  apply path_to_grid_path in Hpath as (Hh & _ & Hs).
  destruct p as [|a [|nxt rest]]; simpl in Hlen; [lia|lia|].
  simpl in Hh. injection Hh as ->.
  destruct Hs as (Hadj & Hfree & _).
  assert (Hshift : shift (pos enemy)
                     (nxt.1 - (pos enemy).1, nxt.2 - (pos enemy).2) = nxt).
  { destruct nxt as [x y]. unfold shift; simpl. f_equal; lia. }
  assert (Hdec : Agent.decide ag enemy player
      = ((nxt.1 - (pos enemy).1, nxt.2 - (pos enemy).2),
         {| plan := rest; ticks := ticks ag + 1 |})).
  { unfold Agent.decide, Agent.replan.
    assert (((ticks ag + 1) `mod` REPLAN_INTERVAL =? 0)
            || bool_decide (plan ag = []) = true) as ->.
    { apply orb_true_iff. destruct Hcond as [H|H]; [left|right].
      - by apply Z.eqb_eq.
      - by apply bool_decide_eq_true. }
    rewrite Hastar.
    assert ((1 <? Z.of_nat (length (pos enemy :: nxt :: rest))) = true) as ->.
    { apply Z.ltb_lt. simpl length. lia. }
    cbv zeta. rewrite in_bounds_Some, next_pos_Some, Hshift.
    destruct Hfree as [Hi Hb].
    rewrite (bool_decide_eq_true_2 _ Hb), Hi. reflexivity. }
  exists nxt, rest. rewrite Hdec. cbn [fst].
  split; [done|]. split; [done|]. split; [done|]. split; [done|].
  split; [done|].
  destruct Hadj as (d & Hd & Heq).
  assert ((nxt.1 - (pos enemy).1, nxt.2 - (pos enemy).2) = d) as ->; [|done].
  rewrite Heq. destruct d as [dx dy]. unfold shift; simpl. f_equal; lia.
Qed.

Lemma decide_takes_first_step_witness :
  ∃ nxt rest,
    [(7, 5); (8, 5); (9, 5); (10, 5)] = pos turning_enemy :: nxt :: rest
    ∧ adjacent (pos turning_enemy) nxt
    ∧ free (Agent._blocked turning_enemy fleeing_player) nxt
    ∧ Agent.decide new_agent turning_enemy fleeing_player
      = ((nxt.1 - (pos turning_enemy).1, nxt.2 - (pos turning_enemy).2),
         {| plan := rest; ticks := ticks new_agent + 1 |})
    ∧ shift (pos turning_enemy)
        (Agent.decide new_agent turning_enemy fleeing_player).1 = nxt
    ∧ (Agent.decide new_agent turning_enemy fleeing_player).1 ∈ DIRS.
Proof.
  apply (decide_takes_first_step new_agent turning_enemy fleeing_player
           [(7, 5); (8, 5); (9, 5); (10, 5)]).
  - right. reflexivity.
  - vm_compute. reflexivity.
  - simpl. lia.
Defined.

(* ------------------------------------------------------------------ *)
(** ** The session invariant *)

(** The three ways a call of [update] can go. *)
Lemma update_outcome (s : TronGame) :
  (state s ≠ Playing ∧ update s = s)
  ∨ (state s = Playing
     ∧ ∃ st, st ≠ Playing
         ∧ update s
           = {| player := player s;
                enemy := set_direction (enemy s) (pursuer_heading s);
                agent := (Agent.decide (agent s) (enemy s) (player s)).2;
                state := st;
                score := score s + (if decide (st = Win) then 1 else 0);
                frame := frame s |})
  ∨ (state s = Playing
     ∧ update s
       = {| player := move (player s);
            enemy := move (set_direction (enemy s) (pursuer_heading s));
            agent := (Agent.decide (agent s) (enemy s) (player s)).2;
            state := Playing;
            score := score s;
            frame := frame s + 1 |}
     ∧ ¬ crashes (tick_blocked s) (player_target s)
     ∧ ¬ crashes (tick_blocked s) (pursuer_target s)
     ∧ player_target s ≠ pursuer_target s).
Proof.
  destruct (decide (state s = Playing)) as [Hs|Hs].
  2:{ left. split; [done|]. by apply update_terminal. }
  right. rewrite (update_playing s Hs). cbv zeta.
  fold (pursuer_heading s).
  destruct (crashesb_cases (tick_blocked s) (player_target s))
    as [[Hpb Hp]|[Hpb Hp]],
    (crashesb_cases (tick_blocked s) (pursuer_target s))
    as [[Heb He]|[Heb He]];
    rewrite Hpb, Heb; cbn [andb orb].
  - left. split; [done|]. exists Draw. split; [done|].
    rewrite decide_False by done. by rewrite Z.add_0_r.
  - left. split; [done|]. exists Lose. split; [done|].
    rewrite decide_False by done. by rewrite Z.add_0_r.
  - destruct (bool_decide (player_target s = pursuer_target s)).
    + left. split; [done|]. exists Lose. split; [done|].
      rewrite decide_False by done. by rewrite Z.add_0_r.
    + left. split; [done|]. exists Win. split; [done|].
      by rewrite decide_True.
  - destruct (bool_decide (player_target s = pursuer_target s)) eqn:Hpe.
    + left. split; [done|]. exists Lose. split; [done|].
      rewrite decide_False by done. by rewrite Z.add_0_r.
    + right. apply bool_decide_eq_false in Hpe. done.
Qed.

Lemma not_crashes_free blocked c : ¬ crashes blocked c → free blocked c.
Proof.
  unfold crashes, free. intros H. split.
  - destruct (inside c); [done|]. exfalso. apply H. by left.
  - intros Hin. apply H. by right.
Qed.

Lemma size_singleton_trail (p : cell) :
  size ((∅ : gset cell) ∪ {[p]}) = 1%nat.
Proof. by rewrite (left_id_L ∅ (∪)), size_singleton. Qed.

Lemma game_inv_fresh (pp pd ep ed : cell) :
  inside pp = true → inside ep = true → pp ≠ ep →
  game_inv (fresh_game pp pd ep ed).
Proof.
  intros Hp He Hne.
  unfold game_inv, fresh_game, new_cycle, new_agent; cbn [player enemy agent
    pos trail alive state score frame ticks].
  rewrite !(left_id_L ∅ (∪)), !size_singleton.
  split; [done|]. split; [done|].
  split; [by apply elem_of_singleton|].
  split; [by apply elem_of_singleton|].
  split.
  { apply elem_of_subseteq. intros c Hc.
    apply elem_of_singleton in Hc as ->. by apply inside_grid. }
  split.
  { apply elem_of_subseteq. intros c Hc.
    apply elem_of_singleton in Hc as ->. by apply inside_grid. }
  split.
  { apply elem_of_disjoint. intros c Hc Hc'.
    apply elem_of_singleton in Hc as ->.
    apply elem_of_singleton in Hc'. done. }
  split; [reflexivity|]. split; [reflexivity|].
  split; [reflexivity|]. split; [reflexivity|].
  split; [right; split; [discriminate|reflexivity]|].
  rewrite decide_True by done. reflexivity.
Qed.

Lemma game_inv_reset : game_inv reset.
Proof.
  apply (game_inv_fresh (10, ROWS `div` 2) RIGHT (COLS - 10, ROWS `div` 2)
           LEFT).
  - reflexivity.
  - reflexivity.
  - discriminate.
Qed.

Lemma game_inv_handle_input keys s :
  game_inv s → game_inv (handle_input keys s).
Proof. rewrite handle_input_frame. done. Qed.

Lemma game_inv_update s : game_inv s → game_inv (update s).
Proof.
  intros Hinv.
  destruct (update_outcome s)
    as [[_ ->]|[(Hs & st & Hst & ->)|(Hs & -> & Hp & He & Hpe)]]; [done| |].
  - destruct Hinv as (H1 & H2 & H3 & H4 & H5 & H6 & H7 & H8 & H9 & H10
                      & H11 & H12 & H13).
    unfold game_inv; cbn [player enemy agent state score frame
      set_direction pos trail alive].
    repeat (split; [done|]).
    rewrite decide_ticks, H13, Hs.
    rewrite (decide_True (P := Playing = Playing)) by done.
    rewrite (decide_False (P := st = Playing)) by done.
    split; [|lia].
    destruct H12 as [[Hw _]|[_ Hsc]]; [congruence|].
    destruct (decide (st = Win)) as [->|Hnw].
    + left. split; [done|lia].
    + right. split; [done|lia].
  - destruct Hinv as (H1 & H2 & H3 & H4 & H5 & H6 & H7 & H8 & H9 & H10
                      & H11 & H12 & H13).
    apply not_crashes_free in Hp as [Hpi Hpb].
    apply not_crashes_free in He as [Hei Heb].
    unfold tick_blocked in Hpb, Heb.
    assert (Hp1 : player_target s ∉ trail (player s))
      by (intros ?; apply Hpb, elem_of_union; by left).
    assert (Hp2 : player_target s ∉ trail (enemy s))
      by (intros ?; apply Hpb, elem_of_union; by right).
    assert (He1 : pursuer_target s ∉ trail (player s))
      by (intros ?; apply Heb, elem_of_union; by left).
    assert (He2 : pursuer_target s ∉ trail (enemy s))
      by (intros ?; apply Heb, elem_of_union; by right).
    unfold game_inv, move. rewrite !next_pos_None.
    cbn [player enemy agent state score frame set_direction pos trail alive
         direction].
    fold (player_target s). fold (pursuer_target s).
    split; [done|]. split; [done|].
    split; [apply elem_of_union; right; by apply elem_of_singleton|].
    split; [apply elem_of_union; right; by apply elem_of_singleton|].
    split.
    { apply elem_of_subseteq. intros c Hc.
      apply elem_of_union in Hc as [Hc|Hc]; [by apply H5|].
      apply elem_of_singleton in Hc as ->. by apply inside_grid. }
    split.
    { apply elem_of_subseteq. intros c Hc.
      apply elem_of_union in Hc as [Hc|Hc]; [by apply H6|].
      apply elem_of_singleton in Hc as ->. by apply inside_grid. }
    split.
    { apply elem_of_disjoint. intros c Hc Hc'.
      apply elem_of_union in Hc as [Hc|Hc];
        apply elem_of_union in Hc' as [Hc'|Hc'].
      - by apply (proj1 (elem_of_disjoint _ _) H7 c).
      - apply elem_of_singleton in Hc' as ->. done.
      - apply elem_of_singleton in Hc as ->. done.
      - apply elem_of_singleton in Hc as ->.
        apply elem_of_singleton in Hc'. done. }
    rewrite !size_add_fresh by done.
    split; [lia|]. split; [lia|]. split; [done|]. split; [done|].
    split.
    { right. split; [done|]. destruct H12 as [[Hw _]|[_ Hsc]]; [congruence|done]. }
    rewrite decide_ticks, H13, Hs. rewrite !decide_True by done. lia.
Qed.

Lemma game_reachable_game_inv s : game_reachable s → game_inv s.
Proof.
  induction 1 as [|keys s Hr IH|s Hr IH].
  - apply game_inv_reset.
  - by apply game_inv_handle_input.
  - by apply game_inv_update.
Qed.

(** X13. In every state of a session both cycles are on the grid, both
    trails lie on the grid, the two trails share no cell, the cycles are on
    different cells, and each trail has exactly [frame + 1] cells. *)
Theorem trails_disjoint_on_grid (s : TronGame) :
  game_reachable s →
  inside (pos (player s)) = true ∧ inside (pos (enemy s)) = true
  ∧ trail (player s) ⊆ grid ∧ trail (enemy s) ⊆ grid
  ∧ trail (player s) ## trail (enemy s)
  ∧ pos (player s) ≠ pos (enemy s)
  ∧ Z.of_nat (size (trail (player s))) = frame s + 1
  ∧ Z.of_nat (size (trail (enemy s))) = frame s + 1.
Proof.
  intros Hr.
  destruct (game_reachable_game_inv s Hr)
    as (H1 & H2 & H3 & H4 & H5 & H6 & H7 & H8 & H9 & _).
  split; [done|]. split; [done|]. split; [done|]. split; [done|].
  split; [done|]. split; [|done].
  intros Heq. apply (proj1 (elem_of_disjoint _ _) H7 (pos (player s)));
    [done|]. by rewrite Heq.
Qed.

Lemma trails_disjoint_on_grid_witness :
  inside (pos (player (update reset))) = true
  ∧ inside (pos (enemy (update reset))) = true
  ∧ trail (player (update reset)) ⊆ grid
  ∧ trail (enemy (update reset)) ⊆ grid
  ∧ trail (player (update reset)) ## trail (enemy (update reset))
  ∧ pos (player (update reset)) ≠ pos (enemy (update reset))
  ∧ Z.of_nat (size (trail (player (update reset)))) = frame (update reset) + 1
  ∧ Z.of_nat (size (trail (enemy (update reset)))) = frame (update reset) + 1.
Proof.
  exact (trails_disjoint_on_grid (update reset)
           (reach_update reset reach_reset)).
Defined.

(** X14. In every state of a session the score is 1 in state Win and 0
    in every other state: [reset] clears it, so it never exceeds one. *)
Theorem score_counts_one_win (s : TronGame) :
  game_reachable s →
  (state s = Win ∧ score s = 1) ∨ (state s ≠ Win ∧ score s = 0).
Proof.
  intros Hr.
  by destruct (game_reachable_game_inv s Hr)
    as (_ & _ & _ & _ & _ & _ & _ & _ & _ & _ & _ & H12 & _).
Qed.

Lemma score_counts_one_win_witness :
  (state (update reset) = Win ∧ score (update reset) = 1)
  ∨ (state (update reset) ≠ Win ∧ score (update reset) = 0).
Proof.
  exact (score_counts_one_win (update reset)
           (reach_update reset reach_reset)).
Defined.

(** X15. In every state of a session the agent's tick counter equals
    the frame counter while the game runs and is one ahead of it once the
    game has ended (the tick that ends a game does not advance the frame);
    the frame counter is never negative. *)
Theorem agent_ticks_follow_frames (s : TronGame) :
  game_reachable s →
  (state s = Playing → ticks (agent s) = frame s)
  ∧ (state s ≠ Playing → ticks (agent s) = frame s + 1)
  ∧ 0 ≤ frame s.
Proof.
  intros Hr.
  destruct (game_reachable_game_inv s Hr)
    as (_ & _ & H3 & _ & _ & _ & _ & H8 & _ & _ & _ & _ & H13).
  split; [|split].
  - intros Hs. rewrite H13, decide_True by done. lia.
  - intros Hs. rewrite H13, decide_False by done. lia.
  - assert (size (trail (player s)) ≠ 0%nat); [|lia].
    intros H0. apply size_empty_inv in H0.
    by apply (proj1 (elem_of_equiv_empty _) H0 (pos (player s))).
Qed.

Lemma agent_ticks_follow_frames_witness :
  (state (update reset) = Playing
   → ticks (agent (update reset)) = frame (update reset))
  ∧ (state (update reset) ≠ Playing
     → ticks (agent (update reset)) = frame (update reset) + 1)
  ∧ 0 ≤ frame (update reset).
Proof.
  exact (agent_ticks_follow_frames (update reset)
           (reach_update reset reach_reset)).
Defined.

(** X16. No state of a session clears a cycle's [alive] flag: it holds
    on both cycles, also after a crash. *)
Theorem alive_flags_never_cleared (s : TronGame) :
  game_reachable s → alive (player s) = true ∧ alive (enemy s) = true.
Proof.
  intros Hr.
  by destruct (game_reachable_game_inv s Hr)
    as (_ & _ & _ & _ & _ & _ & _ & _ & _ & H10 & H11 & _).
Qed.

Lemma alive_flags_never_cleared_witness :
  alive (player lost_game) = true ∧ alive (enemy lost_game) = true.
Proof.
  exact (alive_flags_never_cleared lost_game lost_game_reachable).
Defined.

(* ------------------------------------------------------------------ *)
(** ** The end of a game *)

Lemma game_inv_frame_bounds (s : TronGame) :
  game_inv s → 0 ≤ frame s ∧ 2 * (frame s + 1) ≤ COLS * ROWS.
Proof.
  intros (_ & _ & H3 & _ & H5 & H6 & H7 & H8 & H9 & _).
  split.
  - assert (size (trail (player s)) ≠ 0%nat); [|lia].
    intros H0. apply size_empty_inv in H0.
    by apply (proj1 (elem_of_equiv_empty _) H0 (pos (player s))).
  - assert (trail (player s) ∪ trail (enemy s) ⊆ grid) as Hsub
      by (by apply union_subseteq).
    apply subseteq_size in Hsub.
    rewrite (size_union _ _ H7) in Hsub.
    pose proof grid_size_Z as Hg.
    revert Hsub Hg. generalize (size grid). intros n Hsub Hg. lia.
Qed.

Lemma run_step_reachable keys s :
  game_reachable s → game_reachable (run_step keys s).
Proof. intros Hr. by apply reach_update, reach_input. Qed.

Lemma run_keys_cons k ks s : run_keys (k :: ks) s = run_keys ks (run_step k s).
Proof. reflexivity. Qed.

Lemma run_keys_reachable ks s :
  game_reachable s → game_reachable (run_keys ks s).
Proof.
  revert s. induction ks as [|k ks IH]; intros s Hr; [done|].
  rewrite run_keys_cons. by apply IH, run_step_reachable.
Qed.

Lemma handle_input_state_frame keys s :
  state (handle_input keys s) = state s
  ∧ frame (handle_input keys s) = frame s.
Proof. by rewrite handle_input_frame. Qed.

Lemma run_step_playing keys s :
  state (run_step keys s) = Playing →
  state s = Playing ∧ frame (run_step keys s) = frame s + 1.
Proof.
  unfold run_step.
  destruct (handle_input_state_frame keys s) as [Hst Hfr].
  revert Hst Hfr. generalize (handle_input keys s). intros s' Hst Hfr.
  destruct (update_outcome s')
    as [[Hs ->]|[(Hs & st & Hne & ->)|(Hs & -> & _)]].
  - intros Hp. by destruct Hs.
  - cbn [state]. intros Hp. by destruct Hne.
  - cbn [state frame]. intros _. split; congruence.
Qed.

Lemma run_keys_playing ks s :
  state (run_keys ks s) = Playing →
  state s = Playing
  ∧ frame (run_keys ks s) = frame s + Z.of_nat (length ks).
Proof.
  revert s. induction ks as [|k ks IH]; intros s Hp.
  - split; [done|]. cbn [length]. unfold run_keys; cbn [fold_left]. lia.
  - rewrite run_keys_cons in Hp |- *.
    destruct (IH _ Hp) as [Hs Hf].
    destruct (run_step_playing k s Hs) as [Hs' Hf'].
    split; [done|]. rewrite Hf, Hf'. cbn [length]. lia.
Qed.

(** X17. Every game ends.  In a session the frame counter stays below
    [COLS * ROWS / 2] = 1200, and after as many frames of the main loop as
    bring it there, whatever keys are down in each of them, the game is no
    longer running. *)
Theorem game_ends_before_grid_fills (s : TronGame) (ks : list (Key → bool)) :
  game_reachable s →
  (COLS * ROWS) `div` 2 ≤ frame s + Z.of_nat (length ks) →
  0 ≤ frame s < (COLS * ROWS) `div` 2
  ∧ state (run_keys ks s) ≠ Playing.
Proof.
  intros Hr Hlen.
  pose proof (game_inv_frame_bounds s (game_reachable_game_inv s Hr)) as Hb.
  assert ((COLS * ROWS) `div` 2 = 1200) as Hc by reflexivity.
  assert (COLS * ROWS = 2400) as Hc' by reflexivity.
  rewrite Hc in Hlen |- *. rewrite Hc' in Hb.
  split; [lia|].
  intros Hp. destruct (run_keys_playing ks s Hp) as [_ Hf].
  pose proof (game_inv_frame_bounds _
    (game_reachable_game_inv _ (run_keys_reachable ks s Hr))) as Hb'.
  rewrite Hc' in Hb'. lia.
Qed.

Lemma game_ends_before_grid_fills_witness :
  0 ≤ frame reset < (COLS * ROWS) `div` 2
  ∧ state (run_keys (replicate 1200 idle) reset) ≠ Playing.
Proof.
  apply (game_ends_before_grid_fills reset (replicate 1200 idle) reach_reset).
  rewrite length_replicate. vm_compute. discriminate.
Defined.

(* ------------------------------------------------------------------ *)
(** ** Held keys *)

Lemma handle_input_direction_congr keys s s' :
  direction (player s) = direction (player s') →
  direction (player (handle_input keys s))
  = direction (player (handle_input keys s')).
Proof.
  intros H. unfold handle_input. rewrite H.
  repeat (match goal with
          | |- context [if ?b then _ else _] => destruct b
          end; [reflexivity|]).
  exact H.
Qed.

Lemma run_step_direction keys s :
  direction (player (run_step keys s))
  = direction (player (handle_input keys s)).
Proof. unfold run_step. apply update_player_direction. Qed.

Lemma run_step_direction_congr keys s s' :
  direction (player s) = direction (player s') →
  direction (player (run_step keys s)) = direction (player (run_step keys s')).
Proof.
  intros H. rewrite !run_step_direction.
  by apply handle_input_direction_congr.
Qed.

Lemma handle_input_steer keys s :
  direction (player (handle_input keys s))
  = steer_keys keys (direction (player s)).
Proof.
  unfold handle_input, steer_keys, steer.
  repeat (match goal with
          | |- context [if ?b then _ else _] => destruct b
          end; [reflexivity|]).
  reflexivity.
Qed.

Lemma steer_cases up down left right d :
  steer up down left right d ∈ DIRS ∨ steer up down left right d = d.
Proof.
  unfold steer.
  repeat (match goal with
          | |- context [if ?b then _ else _] => destruct b
          end; [left; apply elem_of_DIRS; auto|]).
  by right.
Qed.

Lemma steer_off_axis up down left right d :
  d ∉ DIRS →
  steer up down left right d
  = if up then UP else if down then DOWN else if left then LEFT
    else if right then RIGHT else d.
Proof.
  intros Hd. unfold steer.
  rewrite !bool_decide_eq_true_2, !andb_true_r; [reflexivity|..];
    intros ->; apply Hd, elem_of_DIRS; auto.
Qed.

Lemma steer_settles up down left right d :
  steer up down left right
    (steer up down left right (steer up down left right d))
  = steer up down left right (steer up down left right d).
Proof.
  destruct (decide (d ∈ DIRS)) as [Hd|Hd].
  - apply elem_of_DIRS in Hd.
    destruct Hd as [-> | [-> | [-> | ->]]];
      destruct up, down, left, right; vm_compute; reflexivity.
  - rewrite (steer_off_axis up down left right d Hd).
    destruct up, down, left, right; vm_compute; reflexivity.
Qed.

Lemma run_step_steer keys s :
  direction (player (run_step keys s))
  = steer_keys keys (direction (player s)).
Proof. by rewrite run_step_direction, handle_input_steer. Qed.

Lemma run_keys_held keys n s :
  direction (player (run_keys (replicate n keys) s))
  = Nat.iter n (steer_keys keys) (direction (player s)).
Proof.
  revert s. induction n as [|n IH]; intros s; [reflexivity|].
  cbn [replicate]. rewrite run_keys_cons, IH, run_step_steer.
  by rewrite Nat.iter_succ_r.
Qed.

Lemma iter_settles {A} (f : A → A) (n : nat) (x : A) :
  (∀ y, f (f (f y)) = f (f y)) → (2 ≤ n)%nat →
  Nat.iter n f x = f (f x).
Proof.
  intros Hf Hn. induction Hn as [|n Hn IH]; [reflexivity|].
  rewrite Nat.iter_succ, IH. apply Hf.
Qed.

(** X18. With the same keys held down, the player's heading stops
    changing after two frames of the main loop: after any larger number of
    frames it is the heading after two. *)
Theorem held_keys_settle_in_two_frames (keys : Key → bool) (s : TronGame)
    (n : nat) :
  (2 ≤ n)%nat →
  direction (player (run_keys (replicate n keys) s))
  = direction (player (run_keys [keys; keys] s)).
Proof.
  intros Hn. change [keys; keys] with (replicate 2 keys).
  rewrite (run_keys_held keys n s), (run_keys_held keys 2 s).
  rewrite (iter_settles (steer_keys keys) n); [reflexivity| |done].
  intros y. apply steer_settles.
Qed.

Lemma held_keys_settle_in_two_frames_witness :
  direction (player (run_keys (replicate 5 (keys_for UP)) reset))
  = direction (player (run_keys [keys_for UP; keys_for UP] reset)).
Proof.
  apply (held_keys_settle_in_two_frames (keys_for UP) reset 5). lia.
Defined.

(* ------------------------------------------------------------------ *)
(** ** The pursuer's crash *)

Lemma blocked_tick_blocked s :
  Agent._blocked (enemy s) (player s) = tick_blocked s.
Proof. unfold Agent._blocked, tick_blocked. apply (comm_L (∪)). Qed.

Lemma update_enemy_crash s :
  state s = Playing →
  state (update s) = Win ∨ state (update s) = Draw →
  crashes (tick_blocked s) (pursuer_target s).
Proof.
  intros Hs. rewrite (update_playing s Hs). cbv zeta.
  destruct (crashesb_cases (tick_blocked s) (pursuer_target s))
    as [[_ He]|[Heb _]]; [done|].
  rewrite Heb, andb_false_r.
  destruct (crashesb (tick_blocked s) (player_target s)
            || bool_decide (player_target s = pursuer_target s));
    cbn [state]; intros [H|H]; discriminate H.
Qed.

(** X19. The pursuer crashes only when boxed in: when a tick of a
    running game ends in Win or Draw, no direction other than the reverse
    of the pursuer's heading led to a cell on the grid and on no trail,
    [decide] kept the heading, and the cell ahead was off the grid or on a
    trail. *)
Theorem enemy_crashes_only_when_boxed_in (s : TronGame) :
  state s = Playing →
  state (update s) = Win ∨ state (update s) = Draw →
  survival_candidates (enemy s) (tick_blocked s) = []
  ∧ pursuer_heading s = direction (enemy s)
  ∧ crashes (tick_blocked s) (shift (pos (enemy s)) (direction (enemy s))).
Proof.
  intros Hs Hend.
  pose proof (update_enemy_crash s Hs Hend) as Hcrash.
  unfold pursuer_target in Hcrash.
  destruct (decide_target (agent s) (enemy s) (player s)) as [Hfree|[Hnil Hd]].
  - exfalso. rewrite blocked_tick_blocked in Hfree.
    fold (pursuer_heading s) in Hfree.
    destruct Hfree as [Hin Hnb], Hcrash as [Hout|Hb]; [congruence|done].
  - rewrite blocked_tick_blocked in Hnil. fold (pursuer_heading s) in Hd.
    split; [done|]. split; [done|]. by rewrite <- Hd.
Qed.

Lemma enemy_crashes_only_when_boxed_in_witness :
  survival_candidates (enemy boxed_game) (tick_blocked boxed_game) = []
  ∧ pursuer_heading boxed_game = direction (enemy boxed_game)
  ∧ crashes (tick_blocked boxed_game)
            (shift (pos (enemy boxed_game)) (direction (enemy boxed_game))).
Proof.
  apply (enemy_crashes_only_when_boxed_in boxed_game).
  - reflexivity.
  - left. vm_compute. reflexivity.
Defined.

(* ------------------------------------------------------------------ *)
(** ** Trails over a session *)

Lemma update_trails s :
  trail (player s) ⊆ trail (player (update s))
  ∧ trail (enemy s) ⊆ trail (enemy (update s)).
Proof.
  destruct (update_outcome s)
    as [[_ ->]|[(_ & st & _ & ->)|(_ & -> & _)]];
    cbn [player enemy move set_direction trail]; [done|done|].
  split; apply union_subseteq_l.
Qed.

Lemma handle_input_trails keys s :
  trail (player (handle_input keys s)) = trail (player s)
  ∧ trail (enemy (handle_input keys s)) = trail (enemy s).
Proof. by rewrite handle_input_frame. Qed.

(** X20. Trails only grow: over any number of frames of the main loop
    without a restart every cell of a trail stays on it, and so does every
    blocked cell. *)
Theorem trails_only_grow (ks : list (Key → bool)) (s : TronGame) :
  trail (player s) ⊆ trail (player (run_keys ks s))
  ∧ trail (enemy s) ⊆ trail (enemy (run_keys ks s))
  ∧ tick_blocked s ⊆ tick_blocked (run_keys ks s).
Proof.
  assert (H : trail (player s) ⊆ trail (player (run_keys ks s))
              ∧ trail (enemy s) ⊆ trail (enemy (run_keys ks s))).
  { revert s. induction ks as [|k ks IH]; intros s; [done|].
    rewrite run_keys_cons. destruct (IH (run_step k s)) as [IHp IHe].
    unfold run_step in IHp, IHe |- *.
    destruct (update_trails (handle_input k s)) as [Hp He].
    destruct (handle_input_trails k s) as [Hp' He'].
    rewrite Hp' in Hp. rewrite He' in He.
    split; etrans; eassumption. }
  destruct H as [Hp He]. split; [done|]. split; [done|].
  unfold tick_blocked. by apply union_mono.
Qed.
